(** * A shallow embedding of [proxy.c]: the caching HTTP/1.0 forward proxy

    The embedding follows the C source function by function.  Character
    buffers are lists of bytes ([ascii]); a list stands for the contents of
    an array that is followed by a terminating NUL, so the C string held by
    a buffer is the part before its first NUL byte.  Values of type [int]
    are integers of [Z] stored through [to_int], which writes out the
    wrap-around of a 32-bit two's complement word.  The linked list of cache
    nodes is the list of its nodes, head first.

    The semaphores of [cache_manager] and its [readers] count serialise
    threads and are left out: every function is embedded as one thread runs
    it from entry to exit. *)

From Stdlib Require Import ZArith Ascii String List Lia Bool.
From Stdlib Require Import Permutation.
Import ListNotations.
Open Scope Z_scope.

(** ** Machine integers *)

Definition INT_MAX : Z := 2147483647.
Definition INT_MIN : Z := -2147483648.

(** The value an [int] object holds after a computation whose mathematical
    result is [z]. *)
Definition to_int (z : Z) : Z := (z + 2147483648) mod 4294967296 - 2147483648.

Definition in_int (z : Z) : Prop := INT_MIN <= z <= INT_MAX.

(** [size_t] is an unsigned 64-bit word. *)
Definition to_size_t (z : Z) : Z := z mod 18446744073709551616.

(** ** C strings *)

Definition NUL : ascii := "000"%char.
Definition CR : ascii := "013"%char.
Definition LF : ascii := "010"%char.

(** A literal of the source, as bytes. *)
Definition lit (s : string) : list ascii := list_ascii_of_string s.

Definition CRLF : list ascii := [CR; LF].

(** The value of a byte as [unsigned char]. *)
Definition code (c : ascii) : Z := Z.of_N (N_of_ascii c).

(** The string a buffer holds: its bytes before the first NUL. *)
Fixpoint cstr (b : list ascii) : list ascii :=
  match b with
  | [] => []
  | c :: r => if (c =? NUL)%char then [] else c :: cstr r
  end.

Definition strlen (b : list ascii) : nat := length (cstr b).

(** [strncmp a b n]: compares at most [n] bytes, stopping after a NUL. *)
Fixpoint strncmp (a b : list ascii) (n : nat) : Z :=
  match n with
  | O => 0
  | S n' =>
      let x := hd NUL a in
      let y := hd NUL b in
      if (x =? y)%char
      then if (x =? NUL)%char then 0 else strncmp (tl a) (tl b) n'
      else code x - code y
  end.

(** [strcmp a b]: the same comparison without a bound. *)
Fixpoint strcmp (a b : list ascii) : Z :=
  let x := hd NUL a in
  let y := hd NUL b in
  if (x =? y)%char
  then match a with
       | [] => 0
       | _ :: a' => if (x =? NUL)%char then 0 else strcmp a' (tl b)
       end
  else code x - code y.

(** [tolower] in the C locale. *)
Definition tolower (c : ascii) : ascii :=
  if (65 <=? code c) && (code c <=? 90)
  then ascii_of_N (N_of_ascii c + 32)
  else c.

(** [strcasecmp a b]: [strcmp] on the lower-cased bytes. *)
Fixpoint strcasecmp (a b : list ascii) : Z :=
  let x := tolower (hd NUL a) in
  let y := tolower (hd NUL b) in
  if (x =? y)%char
  then match a with
       | [] => 0
       | _ :: a' => if (x =? NUL)%char then 0 else strcasecmp a' (tl b)
       end
  else code x - code y.

(** [isspace] in the C locale: space, and the controls 9 to 13. *)
Definition isspace (c : ascii) : bool :=
  (code c =? 32) || ((9 <=? code c) && (code c <=? 13)).

(** [strchr s c] for [c <> NUL]: the offset of the first [c] of the string,
    if there is one.  A pointer into a buffer is the buffer and an offset. *)
Fixpoint strchr (s : list ascii) (c : ascii) : option nat :=
  match s with
  | [] => None
  | x :: r =>
      if (x =? NUL)%char then None
      else if (x =? c)%char then Some O
      else option_map S (strchr r c)
  end.

(** [strstr s "//"]: the offset of the first two slashes in a row. *)
Fixpoint strstr_slashes (s : list ascii) : option nat :=
  match s with
  | [] => None
  | x :: r =>
      if (x =? NUL)%char then None
      else if ((x =? "/")%char && (hd NUL r =? "/")%char)%bool then Some O
      else option_map S (strstr_slashes r)
  end.

(** [sprintf] with [%s]: the string of the argument. *)
Definition fmt_s (arg : list ascii) : list ascii := cstr arg.

(** [Rio_writen (fd, buf, strlen (buf))]: the bytes that reach [fd]. *)
Definition written_string (buf : list ascii) : list ascii := cstr buf.

Definition nul_free (b : list ascii) : Prop := ~ In NUL b.

(** ** The cache store *)

Definition MAX_CACHE_SIZE : Z := 1049000.
Definition MAX_OBJECT_SIZE : Z := 102400.

(** [cache_node_t] without its [next_ptr]: the list of nodes carries the
    links.  [content] holds the bytes that were copied into the node. *)
Record cache_node_t := mk_node {
  url : list ascii;
  content : list ascii;
  content_size : Z;
  access_time : Z
}.

Record cache_manager := mk_cache {
  first : list cache_node_t;
  current_size : Z
}.

(** The two globals of the program. *)
Record globals := mk_globals {
  global_cache : cache_manager;
  access_counter : Z
}.

Definition initialize_cache : cache_manager :=
  {| first := []; current_size := 0 |}.

(** The globals once [main] has called [initialize_cache]. *)
Definition startup : globals :=
  {| global_cache := initialize_cache; access_counter := 0 |}.

(** [++access_counter]: the value stored is the value returned. *)
Definition update_counter (counter : Z) : Z := to_int (counter + 1).

(** The test of [check_cache] on one node.  For an empty [uri] the source
    reads [uri[-1]]; if that byte is a slash the bound of [strncmp] is
    [SIZE_MAX] and the second disjunct says again that the two strings are
    equal, so the test is that of the first disjunct whatever the byte is. *)
Definition url_matches (node_url uri : list ascii) : bool :=
  (strcmp node_url uri =? 0) ||
  match strlen uri with
  | O => false
  | S k => (nth k uri NUL =? "/")%char && (strncmp uri node_url k =? 0)
  end.

Definition stamp (n : cache_node_t) (t : Z) : cache_node_t :=
  {| url := url n; content := content n; content_size := content_size n;
     access_time := t |}.

(** The [for] loop of [check_cache]: the node found (as it is after the
    update), the list and the counter. *)
Fixpoint walk (l : list cache_node_t) (uri : list ascii) (counter : Z)
  : option cache_node_t * list cache_node_t * Z :=
  match l with
  | [] => (None, [], counter)
  | current :: rest =>
      if url_matches (url current) uri then
        let t := update_counter counter in
        (Some (stamp current t), stamp current t :: rest, t)
      else
        let '(found, rest', counter') := walk rest uri counter in
        (found, current :: rest', counter')
  end.

Definition check_cache (g : globals) (uri : list ascii)
  : option cache_node_t * globals :=
  let '(found, l, counter) :=
    walk (first (global_cache g)) uri (access_counter g) in
  (found,
   {| global_cache :=
        {| first := l; current_size := current_size (global_cache g) |};
      access_counter := counter |}).

(** The scan of [remove_oldest]: [pos] is the position of [current],
    [to_remove] the position and the node of the candidate. *)
Fixpoint scan (l : list cache_node_t) (pos : nat) (oldest : Z)
    (to_remove : nat * cache_node_t) : nat * cache_node_t :=
  match l with
  | [] => to_remove
  | current :: rest =>
      if access_time current <? oldest
      then scan rest (S pos) (access_time current) (pos, current)
      else scan rest (S pos) oldest to_remove
  end.

(** Unlinking the node at a position. *)
Definition unlink (i : nat) (l : list cache_node_t) : list cache_node_t :=
  firstn i l ++ skipn (S i) l.

Definition remove_oldest (cache : cache_manager) : cache_manager :=
  match first cache with
  | [] => cache
  | head :: _ =>
      let '(i, to_remove) :=
        scan (first cache) 0 (access_time head) (0%nat, head) in
      {| first := unlink i (first cache);
         current_size :=
           to_int (current_size cache - content_size to_remove) |}
  end.

(** The [while] loop of [add_to_cache], for at most [fuel] iterations;
    [None] when the loop is still running after them. *)
Fixpoint evict_until (fuel : nat) (cache : cache_manager) (size : Z)
  : option cache_manager :=
  if to_int (current_size cache + size) >? MAX_CACHE_SIZE then
    match fuel with
    | O => None
    | S fuel' => evict_until fuel' (remove_oldest cache) size
    end
  else Some cache.

(** [add_to_cache]; [None] when its loop never exits.  An iteration on a
    non-empty list removes a node and one on the empty list changes nothing,
    so as many iterations as there are nodes decide (lemma
    [evict_until_diverges]).  [memcpy] copies the first [size] bytes of
    [buffer]. *)
Definition add_to_cache (g : globals) (uri buffer : list ascii) (size : Z)
  : option globals :=
  if size >? MAX_OBJECT_SIZE then Some g
  else
    let cache := global_cache g in
    match evict_until (length (first cache)) cache size with
    | None => None
    | Some cache' =>
        let t := update_counter (access_counter g) in
        let new_node :=
          {| url := cstr uri;
             content := firstn (Z.to_nat size) buffer;
             content_size := size;
             access_time := t |} in
        Some {| global_cache :=
                  {| first := new_node :: first cache';
                     current_size := to_int (current_size cache' + size) |};
                access_counter := t |}
    end.

(** *** Invariants of the store *)

Definition sizes (l : list cache_node_t) : list Z := map content_size l.

Definition sum_sizes (l : list cache_node_t) : Z := fold_right Z.add 0 (sizes l).

(** I1, with the sizes non-negative. *)
Definition I1 (cache : cache_manager) : Prop :=
  current_size cache = sum_sizes (first cache) /\
  Forall (fun n => 0 <= content_size n) (first cache).

(** I2. *)
Definition I2 (cache : cache_manager) : Prop :=
  current_size cache <= MAX_CACHE_SIZE.

(** I4. *)
Definition I4 (cache : cache_manager) : Prop :=
  NoDup (map url (first cache)).

(** The operations on the store, as the pipeline and [add_to_cache] call
    them; a body is admitted with its length, which is not negative. *)
Inductive reachable : globals -> Prop :=
| reach_startup : reachable startup
| reach_lookup g uri :
    reachable g -> reachable (snd (check_cache g uri))
| reach_admit g uri buffer size g' :
    reachable g -> 0 <= size ->
    add_to_cache g uri buffer size = Some g' -> reachable g'
| reach_evict g :
    reachable g ->
    reachable {| global_cache := remove_oldest (global_cache g);
                 access_counter := access_counter g |}.

(** A run of lookups and admissions that do not overlap: each call ends
    before the next begins, as when one thread makes them.  (In the source
    several lookups may overlap under the reader side of the lock, and
    [++access_counter] is not atomic; [hit_reads] and [hit_writes] below
    describe such lookups.)
    The result holds the stamps the run hands out, the earliest first;
    [None] when an admission never returns. *)
Inductive op : Type :=
| Lookup (uri : list ascii)
| Admit (uri buffer : list ascii) (size : Z).

Definition stamp_of_lookup (found : option cache_node_t) : list Z :=
  match found with
  | Some n => [access_time n]
  | None => []
  end.

Definition stamp_of_admit (g : globals) (size : Z) : list Z :=
  if size >? MAX_OBJECT_SIZE then []
  else match first (global_cache g) with
       | new_node :: _ => [access_time new_node]
       | [] => []
       end.

Fixpoint run (ops : list op) (g : globals) : option (globals * list Z) :=
  match ops with
  | [] => Some (g, [])
  | Lookup uri :: more =>
      let '(found, g') := check_cache g uri in
      match run more g' with
      | Some (g'', stamps) => Some (g'', stamp_of_lookup found ++ stamps)
      | None => None
      end
  | Admit uri buffer size :: more =>
      match add_to_cache g uri buffer size with
      | Some g' =>
          match run more g' with
          | Some (g'', stamps) => Some (g'', stamp_of_admit g' size ++ stamps)
          | None => None
          end
      | None => None
      end
  end.

(** Stamps in strictly increasing order. *)
Fixpoint increasing_from (low : Z) (stamps : list Z) : Prop :=
  match stamps with
  | [] => True
  | t :: more => low < t /\ increasing_from t more
  end.

(** ** The URI parser *)

Record parsed_uri := mk_parsed {
  host : list ascii;
  path : list ascii;
  port : list ascii;
  request_header : list ascii
}.

(** The loop that advances [host_end]: how many bytes it steps over. *)
Fixpoint host_span (s : list ascii) : nat :=
  match s with
  | [] => O
  | c :: r =>
      if ((c =? "/")%char || (c =? ":")%char || (c =? NUL)%char)%bool then O
      else S (host_span r)
  end.

(** [extract_uri]: the four strings the call leaves in [host], [path],
    [port] and [request_header].  Each of these is an array of [MAXLINE]
    bytes in the source; the strings are those of the source when each fits
    its array ([extract_uri_fits] below).  When one does not fit, [sprintf]
    or [strcpy] writes past the array and the source has no defined
    result. *)
Definition extract_uri (uri : list ascii) : parsed_uri :=
  let host_start :=
    match strstr_slashes uri with
    | Some off => skipn (off + 2) uri
    | None => uri
    end in
  let len := host_span host_start in
  let host_end := skipn len host_start in
  let host' := firstn len host_start in
  let '(port', path') :=
    if (hd NUL host_end =? ":")%char then
      let port_start := tl host_end in
      match strchr port_start "/" with
      | Some port_end => (firstn port_end port_start, cstr (skipn port_end port_start))
      | None => (cstr port_start, lit "/")
      end
    else (lit "80", cstr host_end) in
  {| host := host'; path := path'; port := port';
     request_header :=
       lit "GET " ++ fmt_s path' ++ lit " HTTP/1.0" ++ CRLF ++
       lit "Host: " ++ fmt_s host' ++ CRLF |}.

(** ** The header rewriter *)

Definition user_agent : list ascii :=
  lit "User-Agent: Mozilla/5.0 (X11; Linux x86_64; rv:10.0.3) Gecko/20120305 Firefox/10.0.3"
  ++ CRLF.
Definition connection_hdr : list ascii := lit "Connection: close" ++ CRLF.
Definition proxy_connection : list ascii := lit "Proxy-Connection: close" ++ CRLF.

(** The four [strncmp] tests that make the loop [continue]. *)
Definition suppressed (buf : list ascii) : bool :=
  (strncmp buf (lit "Host:") 5 =? 0) ||
  (strncmp buf (lit "User-Agent:") 11 =? 0) ||
  (strncmp buf (lit "Connection:") 11 =? 0) ||
  (strncmp buf (lit "Proxy-Connection:") 17 =? 0).

(** The [while] loop of [process_headers].  [lines] are the results of the
    successive calls of [Rio_readlineb] on the client, each the bytes read;
    the end of the list, or no byte read, is the end of input. *)
Fixpoint relay (lines : list (list ascii)) : list ascii :=
  match lines with
  | [] => []
  | buf :: more =>
      if (length buf =? 0)%nat then []
      else if strcmp buf CRLF =? 0 then []
      else if suppressed buf then relay more
      else written_string buf ++ relay more
  end.

(** [process_headers]: the bytes written to [server_fd]. *)
Definition process_headers (lines : list (list ascii)) : list ascii :=
  written_string (fmt_s user_agent) ++
  written_string (fmt_s connection_hdr) ++
  written_string (fmt_s proxy_connection) ++
  relay lines ++
  CRLF.

(** ** The error responder *)

Definition DQUOTE : ascii := "034"%char.

(** [send_error]: the bytes written to [fd], when each of the seven strings
    [sprintf] builds fits [buf], an array of [MAXLINE] bytes
    ([send_error_fits] below).  When one does not fit, [sprintf] writes past
    [buf] and the source has no defined result. *)
Definition send_error (cause errnum shortmsg longmsg : list ascii) : list ascii :=
  written_string (lit "HTTP/1.0 " ++ fmt_s errnum ++ lit " " ++ fmt_s shortmsg ++ CRLF) ++
  written_string (lit "Content-type: text/html" ++ CRLF ++ CRLF) ++
  written_string (lit "<html><title>Proxy Error</title>") ++
  written_string (lit "<body bgcolor=" ++ [DQUOTE] ++ lit "ffffff" ++ [DQUOTE] ++ lit ">" ++ CRLF) ++
  written_string (fmt_s errnum ++ lit ": " ++ fmt_s shortmsg ++ CRLF) ++
  written_string (lit "<p>" ++ fmt_s longmsg ++ lit ": " ++ fmt_s cause ++ CRLF) ++
  written_string (lit "<hr><em>Web Proxy Server</em>" ++ CRLF).

(** ** The request pipeline *)

(** The arrays [method], [uri] and [version] of [process_request]. *)
Record request_line := mk_request_line {
  method : list ascii;
  uri : list ascii;
  version : list ascii
}.

Fixpoint skip_space (s : list ascii) : list ascii :=
  match s with
  | [] => []
  | c :: r => if isspace c then skip_space r else s
  end.

Fixpoint word (s : list ascii) : list ascii :=
  match s with
  | [] => []
  | c :: r => if isspace c then [] else c :: word r
  end.

Fixpoint after_word (s : list ascii) : list ascii :=
  match s with
  | [] => []
  | c :: r => if isspace c then s else after_word r
  end.

(** One [%s] of [sscanf]: white space is skipped, then the bytes up to the
    next white space are stored; [None] when the input ends first. *)
Definition scan_word (s : list ascii) : option (list ascii * list ascii) :=
  match skip_space s with
  | [] => None
  | s' => Some (word s', after_word s')
  end.

(** [sscanf (buffer, "%s %s %s", method, uri, version)]: its result, and the
    three arrays.  [before] is what the arrays hold at the call: an array
    that receives no word keeps it.  The result is [EOF] when there is no
    word at all. *)
Definition sscanf3 (buffer : list ascii) (before : request_line)
  : Z * request_line :=
  match scan_word (cstr buffer) with
  | None => (-1, before)
  | Some (w1, r1) =>
      match scan_word r1 with
      | None =>
          (1, {| method := w1; uri := uri before; version := version before |})
      | Some (w2, r2) =>
          match scan_word r2 with
          | None =>
              (2, {| method := w1; uri := w2; version := version before |})
          | Some (w3, _) =>
              (3, {| method := w1; uri := w2; version := w3 |})
          end
      end
  end.

(** [memcpy (dst + off, src, n)] with [n] the length of [src]. *)
Definition memcpy (dst : list ascii) (off : nat) (src : list ascii) : list ascii :=
  firstn off dst ++ src ++ skipn (off + length src) dst.

(** The loop that copies the response to the client and to
    [object_buffer].  [chunks] are the results of the successive calls of
    [Rio_readlineb] on the origin; the comparison is made in [size_t], the
    type of [n]. *)
Fixpoint tee (chunks : list (list ascii)) (object_buffer : list ascii)
    (total_size : Z) (client : list ascii) : list ascii * Z * list ascii :=
  match chunks with
  | [] => (object_buffer, total_size, client)
  | buffer :: more =>
      let n := Z.of_nat (length buffer) in
      if n >? 0 then
        let object_buffer' :=
          if to_size_t (to_size_t total_size + n) <? MAX_OBJECT_SIZE
          then memcpy object_buffer (Z.to_nat total_size) buffer
          else object_buffer in
        tee more object_buffer' (to_int (total_size + n)) (client ++ buffer)
      else (object_buffer, total_size, client)
  end.

(** What one call of [process_request] does. *)
Record transcript := mk_transcript {
  to_client : list ascii;                           (* bytes written to [client_fd] *)
  error_sent : option (list ascii);                 (* [errnum] of the call of [send_error] *)
  probed : option (list ascii);                     (* argument of [check_cache] *)
  opened : option (list ascii * list ascii);        (* arguments of [Open_clientfd] *)
  to_server : list ascii;                           (* bytes written to [server_fd] *)
  admitted : option (list ascii * list ascii * Z);  (* arguments of [add_to_cache] *)
  globals_after : option globals                    (* [None]: [add_to_cache] never returns *)
}.

(** [process_request].  [client_lines] are the results of the calls of
    [Rio_readlineb] on the client, [before] the contents of the arrays
    [method], [uri] and [version] at the call of [sscanf], [origin] the
    results of the calls of [Rio_readlineb] on the origin once it is
    connected.

    The source holds no lock between its call of [check_cache] and its call
    of [add_to_cache]: this is the call during which no other thread changes
    the globals in between, so that [add_to_cache] runs on the globals
    [check_cache] left ([process_request_with] below takes the globals
    [add_to_cache] finds as an argument of its own).  It is the call of the
    source when no array of [process_request], [send_error] and
    [extract_uri] is overrun ([process_request_fits] below). *)
Definition process_request (client_lines : list (list ascii))
    (before : request_line) (origin : list (list ascii)) (g : globals)
  : transcript :=
  let silent := mk_transcript [] None None None [] None (Some g) in
  match client_lines with
  | [] => silent
  | buffer :: headers =>
      if (length buffer =? 0)%nat then silent
      else
        let '(_, req) := sscanf3 buffer before in
        if negb (strcasecmp (method req) (lit "GET") =? 0) then
          mk_transcript
            (send_error (method req) (lit "501") (lit "Not Implemented")
               (lit "This proxy only supports GET requests"))
            (Some (lit "501")) None None [] None (Some g)
        else
          let '(cached, g1) := check_cache g (uri req) in
          match cached with
          | Some node =>
              mk_transcript
                (firstn (Z.to_nat (content_size node)) (content node))
                None (Some (uri req)) None [] None (Some g1)
          | None =>
              let u := extract_uri (uri req) in
              let sent :=
                written_string (request_header u) ++ process_headers headers in
              let object_buffer := repeat NUL (Z.to_nat MAX_OBJECT_SIZE) in
              let '(object_buffer', total_size, client) :=
                tee origin object_buffer 0 [] in
              if total_size <=? MAX_OBJECT_SIZE then
                mk_transcript client None (Some (uri req))
                  (Some (host u, port u)) sent
                  (Some (uri req, object_buffer', total_size))
                  (add_to_cache g1 (uri req) object_buffer' total_size)
              else
                mk_transcript client None (Some (uri req))
                  (Some (host u, port u)) sent None (Some g1)
          end
  end.

(** No entry carries a stamp beyond the counter. *)
Definition stamped_before (g : globals) : Prop :=
  Forall (fun n => access_time n <= access_counter g) (first (global_cache g)).

(** The store with one entry of one byte, when the counter and the stamp of
    the entry are [t]. *)
Definition single (key body : list ascii) (t : Z) : globals :=
  {| global_cache :=
       {| first := [mk_node key body 1 t]; current_size := 1 |};
     access_counter := t |}.

(** ** Reading a byte stream as header lines *)

(** The lines of a stream; a line ends after its LF. *)
Fixpoint lines_of (s : list ascii) : list (list ascii) :=
  match s with
  | [] => []
  | c :: r =>
      if (c =? LF)%char then [c] :: lines_of r
      else match lines_of r with
           | [] => [[c]]
           | l :: ls => (c :: l) :: ls
           end
  end.

(** The line starts with [name], compared as [process_headers] compares. *)
Definition has_name (name line : list ascii) : bool :=
  strncmp line name (length name) =? 0.

(** How many lines of the stream start with [name]. *)
Definition count_header (name stream : list ascii) : nat :=
  length (filter (has_name name) (lines_of stream)).

(** The bytes [process_request] writes to the origin for the request uri
    [uri] and the client lines [lines] that follow the request line. *)
Definition origin_request (uri : list ascii) (lines : list (list ascii)) : list ascii :=
  written_string (request_header (extract_uri uri)) ++ process_headers lines.

(** ** Deciding equalities by evaluation *)

Definition bytes_eq_dec : forall x y : list ascii, {x = y} + {x <> y} :=
  list_eq_dec ascii_dec.

Definition node_eq_dec (x y : cache_node_t) : {x = y} + {x <> y}.
Proof. decide equality; solve [apply Z.eq_dec | apply bytes_eq_dec]. Defined.

Definition cache_eq_dec (x y : cache_manager) : {x = y} + {x <> y}.
Proof. decide equality; solve [apply Z.eq_dec | apply (list_eq_dec node_eq_dec)]. Defined.

Definition globals_eq_dec (x y : globals) : {x = y} + {x <> y}.
Proof. decide equality; solve [apply Z.eq_dec | apply cache_eq_dec]. Defined.

Definition option_eq_dec {A : Type} (dec : forall x y : A, {x = y} + {x <> y})
    (x y : option A) : {x = y} + {x <> y}.
Proof. decide equality. Defined.

Definition admitted_eq_dec (x y : list ascii * list ascii * Z) : {x = y} + {x <> y}.
Proof. repeat decide equality. Defined.

(** [true] when the two are equal. *)
Definition same {A : Type} (dec : forall x y : A, {x = y} + {x <> y}) (x y : A) : bool :=
  if dec x y then true else false.


(** ** Further vocabulary for the properties *)

(** The chunks the response loop reads: those before the first read of no
    byte. *)
Fixpoint until_eof (chunks : list (list ascii)) : list (list ascii) :=
  match chunks with
  | [] => []
  | c :: more => if (length c =? 0)%nat then [] else c :: until_eof more
  end.

(** The four header names [process_headers] tests for. *)
Definition fixed_names : list (list ascii) :=
  [lit "Host:"; lit "User-Agent:"; lit "Connection:"; lit "Proxy-Connection:"].

(** A word as [%s] reads it: not empty, no white space, no NUL. *)
Definition is_word (w : list ascii) : Prop :=
  w <> [] /\ Forall (fun c => isspace c = false /\ c <> NUL) w.

(** What an entry of the store holds once it is admitted. *)
Definition entry_ok (n : cache_node_t) : Prop :=
  0 <= content_size n <= MAX_OBJECT_SIZE /\
  nul_free (url n) /\
  Z.of_nat (length (content n)) <= content_size n.

(** ** The bounds of the arrays *)

(** Modelled from the spec: [MAXLINE], the size of the line buffers, is a
    macro of [csapp.h], which is not under [src/]; the spec gives the value
    of the reference as 8 KiB. *)
Definition MAXLINE : Z := 8192.

(** A string fits an array of [MAXLINE] bytes with its terminating NUL. *)
Definition fitsb (s : list ascii) : bool := Z.of_nat (length s) <? MAXLINE.

(** The seven strings [send_error] builds in [buf], in order. *)
Definition send_error_lines (cause errnum shortmsg longmsg : list ascii)
  : list (list ascii) :=
  [ lit "HTTP/1.0 " ++ fmt_s errnum ++ lit " " ++ fmt_s shortmsg ++ CRLF;
    lit "Content-type: text/html" ++ CRLF ++ CRLF;
    lit "<html><title>Proxy Error</title>";
    lit "<body bgcolor=" ++ [DQUOTE] ++ lit "ffffff" ++ [DQUOTE] ++ lit ">" ++ CRLF;
    fmt_s errnum ++ lit ": " ++ fmt_s shortmsg ++ CRLF;
    lit "<p>" ++ fmt_s longmsg ++ lit ": " ++ fmt_s cause ++ CRLF;
    lit "<hr><em>Web Proxy Server</em>" ++ CRLF ].

(** No [sprintf] of [send_error] writes past [buf]. *)
Definition send_error_fits (cause errnum shortmsg longmsg : list ascii) : bool :=
  forallb fitsb (send_error_lines cause errnum shortmsg longmsg).

(** No write of [extract_uri] goes past the array it is made to: the uri
    itself is in an array of [MAXLINE] bytes, and so are the host, the path,
    the port and the request header. *)
Definition extract_uri_fits (uri : list ascii) : bool :=
  fitsb (cstr uri) &&
  fitsb (host (extract_uri uri)) &&
  fitsb (path (extract_uri uri)) &&
  fitsb (port (extract_uri uri)) &&
  fitsb (request_header (extract_uri uri)).

(** No array is overrun in the call of [process_request]: the request line
    fits [buffer] (and so its words fit [method], [uri] and [version]); on
    the way to the 501 page the strings of [send_error] fit; on a miss the
    strings of [extract_uri] fit. *)
Definition process_request_fits (client_lines : list (list ascii))
    (before : request_line) (g : globals) : bool :=
  match client_lines with
  | [] => true
  | buffer :: _ =>
      if (length buffer =? 0)%nat then true
      else
        fitsb buffer &&
        let req := snd (sscanf3 buffer before) in
        if negb (strcasecmp (method req) (lit "GET") =? 0) then
          send_error_fits (method req) (lit "501") (lit "Not Implemented")
            (lit "This proxy only supports GET requests")
        else
          match fst (check_cache g (uri req)) with
          | Some _ => true
          | None => extract_uri_fits (uri req)
          end
  end.

(** ** A request among other threads *)


(** ** Two lookups at once *)

(** Lookups hold the reader side of the lock together, and
    [++access_counter] is a read of the counter followed by a write of it.
    A lookup that finds an entry, in two halves: [hit_reads] is the value of
    the counter it reads; [hit_writes], for the value [seen] that was read,
    writes the counter and the stamp of the first entry that matches.
    Between the two halves another lookup may run its own. *)
Definition hit_reads (g : globals) : Z := access_counter g.

Fixpoint stamp_first (l : list cache_node_t) (uri : list ascii) (t : Z)
  : list cache_node_t :=
  match l with
  | [] => []
  | current :: rest =>
      if url_matches (url current) uri then stamp current t :: rest
      else current :: stamp_first rest uri t
  end.

Definition hit_writes (g : globals) (uri : list ascii) (seen : Z) : globals :=
  if existsb (fun n => url_matches (url n) uri) (first (global_cache g)) then
    let t := to_int (seen + 1) in
    {| global_cache :=
         {| first := stamp_first (first (global_cache g)) uri t;
            current_size := current_size (global_cache g) |};
       access_counter := t |}
  else g.

(** Two entries, the counter at the later stamp. *)
Definition two_entries : globals :=
  {| global_cache :=
       {| first := [mk_node (lit "/y") (lit "B") 1 2; mk_node (lit "/x") (lit "A") 1 1];
          current_size := 2 |};
     access_counter := 2 |}.

(** ** A full store *)

(** An object of 100000 bytes under the key [/o] followed by a letter, with
    the stamp [t]. *)
Definition object_of (letter : ascii) (t : Z) : cache_node_t :=
  mk_node (lit "/o" ++ [letter]) (repeat "A"%char (Z.to_nat 100000)) 100000 t.

(** Ten such objects, admitted one after the other: the latest at the
    head. *)
Definition ten_objects : globals :=
  {| global_cache :=
       {| first :=
            [object_of "j" 10; object_of "i" 9; object_of "h" 8; object_of "g" 7;
             object_of "f" 6; object_of "e" 5; object_of "d" 4; object_of "c" 3;
             object_of "b" 2; object_of "a" 1];
          current_size := 1000000 |};
     access_counter := 10 |}.

(** The store [ten_objects] after the admission of a further object of
    100000 bytes under the key [/on]: the object with the least stamp is
    gone. *)
Definition ten_objects_after : globals :=
  {| global_cache :=
       {| first :=
            [mk_node (lit "/on") (repeat "B"%char (Z.to_nat 100000)) 100000 11;
             object_of "j" 10; object_of "i" 9; object_of "h" 8; object_of "g" 7;
             object_of "f" 6; object_of "e" 5; object_of "d" 4; object_of "c" 3;
             object_of "b" 2];
          current_size := 1000000 |};
     access_counter := 11 |}.
(** * Properties *)

(** ** Machine integers *)

Lemma to_int_id (z : Z) : in_int z -> to_int z = z.
Proof.
  unfold in_int, INT_MIN, INT_MAX, to_int. intros Hz.
  rewrite Z.mod_small; lia.
Qed.

Lemma to_int_range (z : Z) : in_int (to_int z).
Proof.
  unfold in_int, INT_MIN, INT_MAX, to_int.
  pose proof (Z.mod_pos_bound (z + 2147483648) 4294967296 eq_refl). lia.
Qed.

Lemma to_size_t_id (z : Z) : 0 <= z < 18446744073709551616 -> to_size_t z = z.
Proof. intros Hz. unfold to_size_t. apply Z.mod_small. exact Hz. Qed.

(** Arithmetic on the ranges of the machine types and on the two limits. *)
Ltac range_lia :=
  unfold in_int, INT_MIN, INT_MAX, MAX_CACHE_SIZE, MAX_OBJECT_SIZE in *; lia.

(** ** C strings *)

Lemma code_inj (x y : ascii) : code x = code y -> x = y.
Proof.
  unfold code. intros H. apply N2Z.inj in H.
  rewrite <- (ascii_N_embedding x), <- (ascii_N_embedding y). now rewrite H.
Qed.

Lemma code_diff (x y : ascii) : (x =? y)%char = false -> code x - code y <> 0.
Proof.
  intros H E. apply Ascii.eqb_neq in H. apply H, code_inj. lia.
Qed.

Lemma cstr_nul_free (b : list ascii) : nul_free b -> cstr b = b.
Proof.
  unfold nul_free. induction b as [|c r IH]; simpl; intros H; [reflexivity|].
  destruct (Ascii.eqb_spec c NUL) as [->|Hc].
  - exfalso. apply H. now left.
  - f_equal. apply IH. intros Hin. apply H. now right.
Qed.

Lemma cstr_is_nul_free (b : list ascii) : nul_free (cstr b).
Proof.
  unfold nul_free. induction b as [|c r IH]; simpl; [tauto|].
  destruct (Ascii.eqb_spec c NUL) as [->|Hc]; simpl; [tauto|].
  intros [E|Hin]; [now apply Hc|now apply IH].
Qed.

Lemma cstr_idem (b : list ascii) : cstr (cstr b) = cstr b.
Proof. apply cstr_nul_free, cstr_is_nul_free. Qed.

Lemma cstr_app_nul_free (a b : list ascii) :
  nul_free a -> cstr (a ++ b) = a ++ cstr b.
Proof.
  unfold nul_free. induction a as [|c r IH]; simpl; intros H; [reflexivity|].
  destruct (Ascii.eqb_spec c NUL) as [->|Hc].
  - exfalso. apply H. now left.
  - f_equal. apply IH. intros Hin. apply H. now right.
Qed.

(** [strcmp] returns 0 exactly on buffers that hold the same string. *)
Lemma strcmp_zero (a b : list ascii) : strcmp a b = 0 <-> cstr a = cstr b.
Proof.
  revert b. induction a as [|x a IH]; intros b.
  - destruct b as [|y b]; cbn [strcmp hd tl cstr]; [rewrite Ascii.eqb_refl; tauto|].
    rewrite (Ascii.eqb_sym NUL y).
    destruct (Ascii.eqb_spec y NUL) as [->|Hy]; [tauto|].
    split; [|discriminate].
    intros E. exfalso. revert E. apply code_diff.
    apply Ascii.eqb_neq. congruence.
  - destruct b as [|y b]; cbn [strcmp hd tl cstr].
    + destruct (Ascii.eqb_spec x NUL) as [->|Hx]; [tauto|].
      split; [|discriminate].
      intros E. exfalso. revert E. apply code_diff. now apply Ascii.eqb_neq.
    + destruct (Ascii.eqb_spec x y) as [<-|Hxy].
      * destruct (Ascii.eqb_spec x NUL) as [->|Hx]; [tauto|].
        rewrite IH. split; [intros ->; reflexivity|now intros [= ->]].
      * split.
        -- intros E. exfalso. revert E. apply code_diff. now apply Ascii.eqb_neq.
        -- destruct (Ascii.eqb_spec x NUL) as [->|Hx];
           destruct (Ascii.eqb_spec y NUL) as [->|Hy];
           try discriminate; try tauto.
           intros [= E _]. now elim Hxy.
Qed.

(** [strncmp] returns 0 exactly on buffers whose strings agree on their
    first [n] bytes. *)
Lemma strncmp_zero (n : nat) (a b : list ascii) :
  strncmp a b n = 0 <-> firstn n (cstr a) = firstn n (cstr b).
Proof.
  revert a b. induction n as [|n IH]; intros a b; [simpl; tauto|].
  destruct a as [|x a], b as [|y b]; cbn [strncmp hd tl cstr].
  - rewrite Ascii.eqb_refl. cbn [firstn]. tauto.
  - rewrite (Ascii.eqb_sym NUL y).
    destruct (Ascii.eqb_spec y NUL) as [->|Hy]; [tauto|].
    split; [|discriminate].
    intros E. exfalso. revert E. apply code_diff.
    apply Ascii.eqb_neq. congruence.
  - destruct (Ascii.eqb_spec x NUL) as [->|Hx]; [tauto|].
    split; [|discriminate].
    intros E. exfalso. revert E. apply code_diff. now apply Ascii.eqb_neq.
  - destruct (Ascii.eqb_spec x y) as [<-|Hxy].
    + destruct (Ascii.eqb_spec x NUL) as [->|Hx]; [tauto|].
      rewrite IH. cbn [firstn].
      split; [intros ->; reflexivity|now intros [= ->]].
    + split.
      * intros E. exfalso. revert E. apply code_diff. now apply Ascii.eqb_neq.
      * destruct (Ascii.eqb_spec x NUL) as [->|Hx];
        destruct (Ascii.eqb_spec y NUL) as [->|Hy];
        cbn [firstn]; try discriminate; try tauto.
        intros [= E _]. now elim Hxy.
Qed.

(** ** Eviction *)

Lemma unlink_middle (before after : list cache_node_t) (v : cache_node_t) :
  unlink (length before) (before ++ v :: after) = before ++ after.
Proof.
  unfold unlink.
  rewrite firstn_app, Nat.sub_diag, firstn_all. cbn [firstn].
  rewrite app_nil_r.
  replace (S (length before)) with (length (before ++ [v]))
    by (rewrite length_app; simpl; lia).
  replace (before ++ v :: after) with ((before ++ [v]) ++ after)
    by (rewrite <- app_assoc; reflexivity).
  rewrite skipn_app, skipn_all, Nat.sub_diag. reflexivity.
Qed.

(** The scan returns a position of the list and the node there; that node
    has the least [access_time] of the list, and is the first such node. *)
Lemma scan_spec (l seen : list cache_node_t) (i : nat) (v : cache_node_t) :
  nth_error (seen ++ l) i = Some v ->
  (i < length seen)%nat ->
  (forall n, In n seen -> access_time v <= access_time n) ->
  (forall n, In n (firstn i seen) -> access_time v < access_time n) ->
  let '(j, w) := scan l (length seen) (access_time v) (i, v) in
  nth_error (seen ++ l) j = Some w /\
  (forall n, In n (seen ++ l) -> access_time w <= access_time n) /\
  (forall n, In n (firstn j (seen ++ l)) -> access_time w < access_time n).
Proof.
  revert seen i v. induction l as [|current rest IH]; intros seen i v Hnth Hi Hmin Hfst.
  - cbn [scan]. rewrite app_nil_r in *. auto.
  - cbn [scan].
    assert (Hseen : seen ++ current :: rest = (seen ++ [current]) ++ rest)
      by (rewrite <- app_assoc; reflexivity).
    assert (Hlen : length (seen ++ [current]) = S (length seen))
      by (rewrite length_app; simpl; lia).
    destruct (Z.ltb_spec (access_time current) (access_time v)) as [Hlt|Hge].
    + specialize (IH (seen ++ [current]) (length seen) current).
      rewrite Hlen, <- Hseen in IH. apply IH.
      * rewrite nth_error_app2, Nat.sub_diag by lia. reflexivity.
      * lia.
      * intros n Hn. apply in_app_or in Hn. destruct Hn as [Hn|[<-|[]]]; [|lia].
        specialize (Hmin n Hn). lia.
      * intros n Hn. rewrite firstn_app, Nat.sub_diag, firstn_all in Hn.
        cbn [firstn] in Hn. rewrite app_nil_r in Hn.
        specialize (Hmin n Hn). lia.
    + specialize (IH (seen ++ [current]) i v).
      rewrite Hlen, <- Hseen in IH. apply IH.
      * exact Hnth.
      * lia.
      * intros n Hn. apply in_app_or in Hn. destruct Hn as [Hn|[<-|[]]]; [|lia].
        now apply Hmin.
      * intros n Hn. apply Hfst.
        rewrite firstn_app in Hn.
        replace (i - length seen)%nat with 0%nat in Hn by lia.
        cbn [firstn] in Hn. now rewrite app_nil_r in Hn.
Qed.

(** What [remove_oldest] does to a non-empty list. *)
Lemma remove_oldest_cons (cache : cache_manager) :
  first cache <> [] ->
  exists before victim after,
    first cache = before ++ victim :: after /\
    remove_oldest cache =
      {| first := before ++ after;
         current_size := to_int (current_size cache - content_size victim) |} /\
    (forall n, In n (first cache) -> access_time victim <= access_time n) /\
    (forall n, In n before -> access_time victim < access_time n).
Proof.
  unfold remove_oldest. destruct (first cache) as [|head rest] eqn:E; [congruence|].
  intros _.
  pose proof (scan_spec rest [head] 0 head) as H.
  change (length [head]) with 1%nat in H.
  change ([head] ++ rest) with (head :: rest) in H.
  assert (Hs : scan (head :: rest) 0 (access_time head) (0%nat, head)
               = scan rest 1 (access_time head) (0%nat, head)).
  { cbn [scan]. now rewrite Z.ltb_irrefl. }
  rewrite Hs.
  destruct (scan rest 1 (access_time head) (0%nat, head)) as [j w].
  destruct H as (Hnth & Hmin & Hfst).
  - reflexivity.
  - lia.
  - intros n [<-|[]]. lia.
  - intros n [].
  - apply nth_error_split in Hnth. destruct Hnth as (before & after & Hl & Hlen).
    exists before, w, after. rewrite Hl. subst j.
    rewrite unlink_middle. repeat split.
    + intros n Hn. apply Hmin. now rewrite Hl.
    + intros n Hn. apply Hfst. rewrite Hl.
      rewrite firstn_app, Nat.sub_diag, firstn_all. cbn [firstn].
      now rewrite app_nil_r.
Qed.

(** C5.  Eviction on an empty cache changes nothing; on a non-empty cache it
    removes exactly one entry, the others keeping their order, and the
    [access_time] of the removed entry is the least of the cache just before
    the eviction; [current_size] decreases by the size of that entry. *)
Theorem remove_oldest_evicts_minimum (cache : cache_manager) :
  match first cache with
  | [] => remove_oldest cache = cache
  | _ :: _ =>
      exists before victim after,
        first cache = before ++ victim :: after /\
        first (remove_oldest cache) = before ++ after /\
        (forall n, In n (first cache) -> access_time victim <= access_time n) /\
        current_size (remove_oldest cache) =
          to_int (current_size cache - content_size victim)
  end.
Proof.
  destruct (first cache) as [|head rest] eqn:E.
  - unfold remove_oldest. now rewrite E.
  - destruct (remove_oldest_cons cache) as (before & victim & after & Hl & Hr & Hmin & _).
    + congruence.
    + exists before, victim, after. rewrite Hr, <- E. cbn [first current_size]. auto.
Qed.

(** ** Sizes *)

Lemma sum_sizes_app (l1 l2 : list cache_node_t) :
  sum_sizes (l1 ++ l2) = sum_sizes l1 + sum_sizes l2.
Proof.
  unfold sum_sizes, sizes. induction l1 as [|n l1 IH]; simpl in *; lia.
Qed.

Lemma sum_sizes_cons (n : cache_node_t) (l : list cache_node_t) :
  sum_sizes (n :: l) = content_size n + sum_sizes l.
Proof. reflexivity. Qed.

Lemma sum_sizes_nonneg (l : list cache_node_t) :
  Forall (fun n => 0 <= content_size n) l -> 0 <= sum_sizes l.
Proof.
  induction 1 as [|n l Hn _ IH]; [reflexivity|].
  rewrite sum_sizes_cons. lia.
Qed.

Lemma I1_empty (cache : cache_manager) :
  I1 cache -> first cache = [] -> current_size cache = 0.
Proof. intros [H _] E. rewrite H, E. reflexivity. Qed.

(** One eviction keeps I1 and does not let [current_size] grow. *)
Lemma remove_oldest_I1 (cache : cache_manager) :
  I1 cache -> in_int (current_size cache) ->
  I1 (remove_oldest cache) /\
  0 <= current_size (remove_oldest cache) <= current_size cache.
Proof.
  intros [Hsum Hpos] Hint.
  destruct (first cache) as [|head rest] eqn:E.
  - unfold remove_oldest. rewrite E.
    split; [unfold I1; rewrite E; now split|].
    rewrite Hsum. cbn. lia.
  - destruct (remove_oldest_cons cache) as (before & victim & after & Hl & Hr & _);
      [congruence|].
    rewrite Hr. cbn [first current_size].
    rewrite E in Hl. rewrite Hl in Hpos, Hsum. clear E.
    apply Forall_app in Hpos. destruct Hpos as [Hb Hva].
    apply Forall_cons_iff in Hva. destruct Hva as [Hv Ha].
    rewrite sum_sizes_app, sum_sizes_cons in Hsum.
    pose proof (sum_sizes_nonneg _ Hb). pose proof (sum_sizes_nonneg _ Ha).
    assert (Hnew : current_size cache - content_size victim
                   = sum_sizes (before ++ after))
      by (rewrite sum_sizes_app; lia).
    rewrite to_int_id.
    + split; [split|].
      * exact Hnew.
      * apply Forall_app. now split.
      * rewrite Hnew, sum_sizes_app. lia.
    + unfold in_int, INT_MIN, INT_MAX in *. rewrite Hnew, sum_sizes_app. lia.
Qed.

Lemma remove_oldest_length (cache : cache_manager) :
  first cache <> [] ->
  S (length (first (remove_oldest cache))) = length (first cache).
Proof.
  intros H.
  destruct (remove_oldest_cons cache H) as (before & victim & after & Hl & Hr & _).
  rewrite Hr, Hl. cbn [first]. rewrite !length_app. simpl. lia.
Qed.

Lemma remove_oldest_empty (cache : cache_manager) :
  first cache = [] -> remove_oldest cache = cache.
Proof. intros E. unfold remove_oldest. now rewrite E. Qed.

(** ** The eviction loop *)

(** A property that one eviction keeps holds when the loop exits. *)
Lemma evict_until_keeps (P : cache_manager -> Prop) (size : Z) :
  (forall c, P c -> P (remove_oldest c)) ->
  forall fuel cache cache',
    P cache -> evict_until fuel cache size = Some cache' -> P cache'.
Proof.
  intros Hstep. induction fuel as [|fuel IH]; intros cache cache' HP; cbn [evict_until].
  - destruct (_ >? _); [discriminate|]. now intros [= <-].
  - destruct (_ >? _); [|now intros [= <-]].
    apply IH. now apply Hstep.
Qed.

(** The loop exits on a state where its condition is false. *)
Lemma evict_until_exit (size : Z) (fuel : nat) (cache cache' : cache_manager) :
  evict_until fuel cache size = Some cache' ->
  to_int (current_size cache' + size) <= MAX_CACHE_SIZE.
Proof.
  revert cache. induction fuel as [|fuel IH]; intros cache; cbn [evict_until];
    destruct (Z.gtb_spec (to_int (current_size cache + size)) MAX_CACHE_SIZE) as [Hgt|Hle];
    try discriminate; try (intros [= <-]; exact Hle).
  apply IH.
Qed.

(** When the loop is still running after as many iterations as the list has
    nodes, it runs for ever: the list is then empty and stays as it is. *)
Lemma evict_until_diverges (size : Z) (cache : cache_manager) :
  evict_until (length (first cache)) cache size = None ->
  forall fuel, evict_until fuel cache size = None.
Proof.
  remember (length (first cache)) as k eqn:Hk. revert cache Hk.
  induction k as [|k IH]; intros cache Hk Hnone.
  - cbn [evict_until] in Hnone.
    destruct (to_int (current_size cache + size) >? MAX_CACHE_SIZE) eqn:Hc;
      [|discriminate].
    assert (E : first cache = []) by (destruct (first cache); [reflexivity|discriminate]).
    induction fuel as [|fuel IHf]; cbn [evict_until]; rewrite Hc; [reflexivity|].
    now rewrite remove_oldest_empty.
  - cbn [evict_until] in Hnone.
    destruct (to_int (current_size cache + size) >? MAX_CACHE_SIZE) eqn:Hc;
      [|discriminate].
    assert (Hne : first cache <> []) by (intros E; rewrite E in Hk; discriminate).
    pose proof (remove_oldest_length cache Hne) as Hlen.
    intros [|fuel]; cbn [evict_until]; rewrite Hc; [reflexivity|].
    apply IH; [lia|exact Hnone].
Qed.

(** More iterations than the loop makes change nothing. *)
Lemma evict_until_more_fuel (size : Z) (fuel extra : nat) (cache cache' : cache_manager) :
  evict_until fuel cache size = Some cache' ->
  evict_until (fuel + extra) cache size = Some cache'.
Proof.
  revert cache. induction fuel as [|fuel IH]; intros cache; cbn [evict_until Nat.add].
  - destruct (_ >? _) eqn:Hc; [discriminate|]. intros [= <-].
    destruct extra; cbn [evict_until]; now rewrite Hc.
  - destruct (_ >? _); [apply IH|trivial].
Qed.


(** The iterations of the loop, one by one: the loop exits after [k] of
    them; each ran on a non-empty list, with the condition true, and removed
    one node. *)
Lemma evict_until_iterations (size : Z) (fuel : nat) (cache : cache_manager) :
  I1 cache -> in_int (current_size cache) -> in_int size ->
  size <= MAX_OBJECT_SIZE ->
  (length (first cache) <= fuel)%nat ->
  exists k cache',
    (k <= length (first cache))%nat /\
    evict_until fuel cache size = Some cache' /\
    cache' = Nat.iter k remove_oldest cache /\
    (forall j, (j < k)%nat ->
       first (Nat.iter j remove_oldest cache) <> [] /\
       MAX_CACHE_SIZE < to_int (current_size (Nat.iter j remove_oldest cache) + size) /\
       S (length (first (Nat.iter (S j) remove_oldest cache)))
       = length (first (Nat.iter j remove_oldest cache))) /\
    (length (first cache') + k = length (first cache))%nat /\
    I1 cache' /\
    to_int (current_size cache' + size) <= MAX_CACHE_SIZE.
Proof.
  intros HI1 Hint Hsize Hmax. revert cache HI1 Hint.
  assert (Hstop : forall c, I1 c -> first c = [] ->
            to_int (current_size c + size) <= MAX_CACHE_SIZE).
  { intros c Hc E. rewrite (I1_empty c Hc E), Z.add_0_l, to_int_id by exact Hsize.
    range_lia. }
  induction fuel as [|fuel IH]; intros cache HI1 Hint Hlen; cbn [evict_until];
    destruct (Z.gtb_spec (to_int (current_size cache + size)) MAX_CACHE_SIZE) as [Hgt|Hle].
  - assert (E : first cache = []) by (destruct (first cache); [reflexivity|cbn in Hlen; lia]).
    pose proof (Hstop cache HI1 E). lia.
  - exists 0%nat, cache. cbn [Nat.iter].
    split; [lia|]. split; [reflexivity|]. split; [reflexivity|].
    split; [intros j Hj; lia|]. split; [lia|]. split; [exact HI1|lia].
  - assert (Hne : first cache <> []).
    { intros E. pose proof (Hstop cache HI1 E). lia. }
    pose proof (remove_oldest_length cache Hne) as Hl.
    destruct (remove_oldest_I1 cache HI1 Hint) as (HI1' & Hlo & Hhi).
    destruct (IH (remove_oldest cache)) as (k & cache' & Hk & He & Hit & Hsteps & Hcount & HI' & Hexit).
    + exact HI1'.
    + range_lia.
    + lia.
    + exists (S k), cache'. rewrite Nat.iter_succ_r.
      split; [lia|]. split; [exact He|]. split; [exact Hit|].
      split; [|split; [lia|split; [exact HI'|exact Hexit]]].
      intros [|j] Hj.
      * cbn [Nat.iter]. split; [exact Hne|]. split; [exact Hgt|exact Hl].
      * rewrite (Nat.iter_succ_r (S j)), (Nat.iter_succ_r j). apply Hsteps. lia.
  - exists 0%nat, cache. cbn [Nat.iter].
    split; [lia|]. split; [reflexivity|]. split; [reflexivity|].
    split; [intros j Hj; lia|]. split; [lia|]. split; [exact HI1|lia].
Qed.

(** C10.  From a cache that satisfies I1 (and whose [current_size] and the
    [size] argument are values of type [int]), for a size of at most
    [MAX_OBJECT_SIZE], the eviction loop of [add_to_cache] terminates.  It
    makes some number [k] of iterations, at most as many as the cache has
    entries; each of them starts on a non-empty list with the condition
    true and removes exactly one entry, so [k] entries are gone at the end;
    the cache it exits on satisfies I1 and the exit condition; once the list
    is empty [current_size] is 0, where the condition is false; and
    [add_to_cache] returns. *)
Theorem eviction_loop_terminates (g : globals) (uri buffer : list ascii) (size : Z) :
  I1 (global_cache g) -> in_int (current_size (global_cache g)) ->
  in_int size -> size <= MAX_OBJECT_SIZE ->
  (exists k cache',
     (k <= length (first (global_cache g)))%nat /\
     evict_until (length (first (global_cache g))) (global_cache g) size = Some cache' /\
     cache' = Nat.iter k remove_oldest (global_cache g) /\
     (forall j, (j < k)%nat ->
        first (Nat.iter j remove_oldest (global_cache g)) <> [] /\
        MAX_CACHE_SIZE <
          to_int (current_size (Nat.iter j remove_oldest (global_cache g)) + size) /\
        S (length (first (Nat.iter (S j) remove_oldest (global_cache g))))
        = length (first (Nat.iter j remove_oldest (global_cache g)))) /\
     (length (first cache') + k = length (first (global_cache g)))%nat /\
     I1 cache' /\
     to_int (current_size cache' + size) <= MAX_CACHE_SIZE) /\
  (forall cache, I1 cache -> first cache = [] ->
     current_size cache = 0 /\ to_int (current_size cache + size) <= MAX_CACHE_SIZE) /\
  (exists g', add_to_cache g uri buffer size = Some g').
Proof.
  intros HI1 Hint Hsize Hmax.
  destruct (evict_until_iterations size (length (first (global_cache g))) (global_cache g))
    as (k & cache' & Hk & He & Hit & Hsteps & Hcount & HI' & Hexit); auto.
  split; [|split].
  - exists k, cache'. auto 10.
  - intros cache Hc E. rewrite (I1_empty cache Hc E). split; [reflexivity|].
    rewrite Z.add_0_l, to_int_id by exact Hsize. range_lia.
  - unfold add_to_cache.
    destruct (Z.gtb_spec size MAX_OBJECT_SIZE); [lia|].
    rewrite He. eauto.
Qed.

Lemma ten_objects_I1 : I1 (global_cache ten_objects).
Proof.
  split; [reflexivity|]. repeat constructor; cbn; lia.
Qed.

Lemma eviction_loop_terminates_witness :
  MAX_CACHE_SIZE < to_int (current_size (global_cache ten_objects) + 100000) /\
  ((exists k cache',
      (k <= length (first (global_cache ten_objects)))%nat /\
      evict_until (length (first (global_cache ten_objects)))
        (global_cache ten_objects) 100000 = Some cache' /\
      cache' = Nat.iter k remove_oldest (global_cache ten_objects) /\
      (forall j, (j < k)%nat ->
         first (Nat.iter j remove_oldest (global_cache ten_objects)) <> [] /\
         MAX_CACHE_SIZE <
           to_int (current_size (Nat.iter j remove_oldest (global_cache ten_objects))
                   + 100000) /\
         S (length (first (Nat.iter (S j) remove_oldest (global_cache ten_objects))))
         = length (first (Nat.iter j remove_oldest (global_cache ten_objects)))) /\
      (length (first cache') + k = length (first (global_cache ten_objects)))%nat /\
      I1 cache' /\
      to_int (current_size cache' + 100000) <= MAX_CACHE_SIZE) /\
   (forall cache, I1 cache -> first cache = [] ->
      current_size cache = 0 /\
      to_int (current_size cache + 100000) <= MAX_CACHE_SIZE) /\
   (exists g',
      add_to_cache ten_objects (lit "/on") (repeat "B"%char (Z.to_nat 100000)) 100000
      = Some g')).
Proof.
  split; [vm_compute; reflexivity|].
  apply (eviction_loop_terminates ten_objects (lit "/on")
           (repeat "B"%char (Z.to_nat 100000)) 100000).
  - exact ten_objects_I1.
  - unfold in_int, INT_MIN, INT_MAX. cbn. lia.
  - unfold in_int, INT_MIN, INT_MAX. lia.
  - unfold MAX_OBJECT_SIZE. lia.
Defined.

(** ** The invariants I1 and I2 *)

Lemma I1_I2_in_int (cache : cache_manager) :
  I1 cache -> I2 cache -> 0 <= current_size cache <= MAX_CACHE_SIZE.
Proof.
  intros [Hs Hp] H2. unfold I2 in H2. split; [|exact H2].
  rewrite Hs. now apply sum_sizes_nonneg.
Qed.

(** A lookup changes no [url] and no [content_size], and keeps the nodes in
    place. *)
Lemma walk_fields (l : list cache_node_t) (uri : list ascii) (counter : Z) :
  map url (snd (fst (walk l uri counter))) = map url l /\
  map content_size (snd (fst (walk l uri counter))) = map content_size l.
Proof.
  induction l as [|current rest IH]; cbn [walk]; [auto|].
  destruct (url_matches (url current) uri); cbn [fst snd map stamp url content_size];
    [auto|].
  destruct (walk rest uri counter) as [[found rest'] counter'].
  cbn [fst snd map] in *. destruct IH as [-> ->]. auto.
Qed.

Lemma check_cache_fields (g : globals) (uri : list ascii) :
  map url (first (global_cache (snd (check_cache g uri))))
    = map url (first (global_cache g)) /\
  map content_size (first (global_cache (snd (check_cache g uri))))
    = map content_size (first (global_cache g)) /\
  current_size (global_cache (snd (check_cache g uri)))
    = current_size (global_cache g).
Proof.
  unfold check_cache.
  pose proof (walk_fields (first (global_cache g)) uri (access_counter g)) as H.
  destruct (walk _ uri _) as [[found l] counter].
  cbn [fst snd global_cache first current_size] in *. tauto.
Qed.

Lemma check_cache_I1_I2 (g : globals) (uri : list ascii) :
  I1 (global_cache g) /\ I2 (global_cache g) ->
  I1 (global_cache (snd (check_cache g uri))) /\
  I2 (global_cache (snd (check_cache g uri))).
Proof.
  destruct (check_cache_fields g uri) as (_ & Hsz & Hcs).
  unfold I1, I2, sum_sizes, sizes. rewrite Hcs, Hsz.
  intros [[Hs Hp] H2]. repeat split; auto.
  apply Forall_map. apply (Forall_map content_size (fun z => 0 <= z)) in Hp.
  now rewrite Hsz.
Qed.

Lemma remove_oldest_I1_I2 (cache : cache_manager) :
  I1 cache /\ I2 cache -> I1 (remove_oldest cache) /\ I2 (remove_oldest cache).
Proof.
  intros [H1 H2]. pose proof (I1_I2_in_int cache H1 H2) as Hr.
  destruct (remove_oldest_I1 cache H1) as [H1' Hcs].
  - range_lia.
  - split; [exact H1'|]. unfold I2 in *. lia.
Qed.

Lemma add_to_cache_I1_I2 (g g' : globals) (uri buffer : list ascii) (size : Z) :
  I1 (global_cache g) /\ I2 (global_cache g) ->
  0 <= size ->
  add_to_cache g uri buffer size = Some g' ->
  I1 (global_cache g') /\ I2 (global_cache g').
Proof.
  intros Hinv Hsize. unfold add_to_cache.
  destruct (Z.gtb_spec size MAX_OBJECT_SIZE) as [Hbig|Hfit]; [now intros [= <-]|].
  destruct (evict_until _ _ size) as [cache'|] eqn:He; [|discriminate].
  intros [= <-]. cbn [global_cache].
  pose proof (evict_until_keeps (fun c => I1 c /\ I2 c) size
                remove_oldest_I1_I2 _ _ _ Hinv He) as [H1 H2].
  pose proof (evict_until_exit _ _ _ _ He) as Hexit.
  pose proof (I1_I2_in_int cache' H1 H2) as Hr.
  rewrite to_int_id in Hexit |- *
    by range_lia.
  destruct H1 as [Hs Hp]. split; [split|].
  - cbn [first current_size]. rewrite sum_sizes_cons. cbn [content_size]. lia.
  - cbn [first]. constructor; [exact Hsize|exact Hp].
  - unfold I2. cbn [current_size]. exact Hexit.
Qed.

(** C4.  In every state that lookups, admissions of bodies (of a size that
    is not negative) and evictions reach from the initial state,
    [current_size] is the sum of the sizes of the entries (I1) and is at most
    [MAX_CACHE_SIZE] (I2). *)
Theorem reachable_I1_I2 (g : globals) :
  reachable g -> I1 (global_cache g) /\ I2 (global_cache g).
Proof.
  induction 1 as [|g uri _ IH|g uri buffer size g' _ IH Hsize Hadd|g _ IH].
  - split; [split; [reflexivity|constructor]|].
    unfold I2, MAX_CACHE_SIZE. simpl. lia.
  - now apply check_cache_I1_I2.
  - eapply add_to_cache_I1_I2; eauto.
  - cbn [global_cache]. now apply remove_oldest_I1_I2.
Qed.

Lemma reachable_I1_I2_witness :
  let g := {| global_cache :=
                {| first := [mk_node (lit "http://h/x") (lit "body") 4 1];
                   current_size := 4 |};
              access_counter := 1 |} in
  I1 (global_cache g) /\ I2 (global_cache g).
Proof.
  apply (reachable_I1_I2 _).
  apply (reach_admit startup (lit "http://h/x") (lit "body") 4).
  - exact reach_startup.
  - lia.
  - reflexivity.
Defined.

(** ** Lookup *)

(** The test of [check_cache], on the strings: the two are equal, or [uri]
    ends in a slash and [uri] without that slash is a prefix of the
    node's [url]. *)
Lemma url_matches_spec (node_url uri : list ascii) :
  url_matches node_url uri = true <->
  cstr node_url = cstr uri \/
  exists k, strlen uri = S k /\ nth k uri NUL = "/"%char /\
            firstn k (cstr uri) = firstn k (cstr node_url).
Proof.
  unfold url_matches. rewrite orb_true_iff, Z.eqb_eq, strcmp_zero.
  destruct (strlen uri) as [|k].
  - split; [intros [H|H]; [now left|discriminate]|].
    intros [H|(k & Hk & _)]; [now left|discriminate].
  - rewrite andb_true_iff, Ascii.eqb_eq, Z.eqb_eq, strncmp_zero.
    split; intros [H|H]; try (now left); right.
    + exists k. tauto.
    + destruct H as (k' & [= <-] & H). exact H.
Qed.

(** A lookup that finds nothing leaves the list and the counter as they
    are, and no node passes the test. *)
Lemma walk_miss (l : list cache_node_t) (uri : list ascii) (counter : Z) :
  fst (fst (walk l uri counter)) = None ->
  walk l uri counter = (None, l, counter) /\
  forall n, In n l -> url_matches (url n) uri = false.
Proof.
  induction l as [|current rest IH]; cbn [walk]; [intros _; split; [reflexivity|intros n []]|].
  destruct (url_matches (url current) uri) eqn:Hm; [discriminate|].
  destruct (walk rest uri counter) as [[found rest'] counter'].
  cbn [fst] in *. intros ->. destruct (IH eq_refl) as [[= -> ->] Hall].
  split; [reflexivity|]. intros n [<-|Hn]; auto.
Qed.

(** A lookup that finds a node finds the first one that passes the test,
    and changes its stamp only. *)
Lemma walk_hit (l l' : list cache_node_t) (uri : list ascii) (counter counter' : Z)
    (found : cache_node_t) :
  walk l uri counter = (Some found, l', counter') ->
  exists before n after,
    l = before ++ n :: after /\
    l' = before ++ found :: after /\
    found = stamp n (update_counter counter) /\
    counter' = update_counter counter /\
    url_matches (url n) uri = true /\
    forall m, In m before -> url_matches (url m) uri = false.
Proof.
  revert l'. induction l as [|current rest IH]; intros l'; cbn [walk]; [discriminate|].
  destruct (url_matches (url current) uri) eqn:Hm.
  - intros [= <- <- <-]. exists [], current, rest. repeat split; auto. intros m [].
  - destruct (walk rest uri counter) as [[r rest'] c'].
    intros [= -> <- ->].
    destruct (IH rest' eq_refl) as (before & n & after & -> & -> & Hf & Hc & Hn & Hb).
    exists (current :: before), n, after. repeat split; auto.
    intros m [<-|Hin]; auto.
Qed.

Lemma check_cache_miss (g g1 : globals) (uri : list ascii) :
  check_cache g uri = (None, g1) ->
  g1 = g /\ forall n, In n (first (global_cache g)) -> url n <> cstr uri.
Proof.
  unfold check_cache.
  pose proof (walk_miss (first (global_cache g)) uri (access_counter g)) as H.
  destruct (walk _ uri _) as [[found l] counter]. cbn [fst] in H.
  intros [= -> <-]. destruct (H eq_refl) as [[= -> ->] Hall].
  split; [destruct g as [[l c] a]; reflexivity|].
  intros n Hn E. specialize (Hall n Hn).
  assert (Ht : url_matches (url n) uri = true).
  { apply url_matches_spec. left. rewrite E. apply cstr_idem. }
  congruence.
Qed.

(** ** The keys *)

Lemma remove_oldest_sub (cache : cache_manager) (n : cache_node_t) :
  In n (first (remove_oldest cache)) -> In n (first cache).
Proof.
  destruct (first cache) as [|head rest] eqn:E.
  - rewrite remove_oldest_empty by exact E. now rewrite E.
  - destruct (remove_oldest_cons cache) as (before & victim & after & Hl & Hr & _);
      [congruence|].
    rewrite Hr, <- E, Hl. cbn [first]. rewrite !in_app_iff. simpl. tauto.
Qed.

Lemma remove_oldest_I4 (cache : cache_manager) :
  I4 cache -> I4 (remove_oldest cache).
Proof.
  unfold I4. destruct (first cache) as [|head rest] eqn:E.
  - rewrite remove_oldest_empty by exact E. now rewrite E.
  - destruct (remove_oldest_cons cache) as (before & victim & after & Hl & Hr & _);
      [congruence|].
    rewrite Hr, <- E, Hl. cbn [first]. rewrite !map_app. cbn [map].
    apply NoDup_remove_1.
Qed.


(** What an admission does to the keys: the new entry takes the key of the
    uri, the entries kept are entries of the store, and the keys are
    pairwise distinct afterwards exactly when no entry kept has that key. *)
Lemma add_to_cache_keys (g g' : globals) (uri buffer : list ascii) (size : Z) :
  I4 (global_cache g) ->
  size <= MAX_OBJECT_SIZE ->
  add_to_cache g uri buffer size = Some g' ->
  exists new_node kept,
    first (global_cache g') = new_node :: kept /\
    url new_node = cstr uri /\
    (forall n, In n kept -> In n (first (global_cache g))) /\
    (I4 (global_cache g') <-> ~ In (cstr uri) (map url kept)) /\
    (to_int (current_size (global_cache g) + size) <= MAX_CACHE_SIZE ->
     kept = first (global_cache g)).
Proof.
  intros H4 Hsize. unfold add_to_cache.
  destruct (Z.gtb_spec size MAX_OBJECT_SIZE) as [Hbig|_]; [lia|].
  destruct (evict_until _ _ size) as [cache'|] eqn:He; [|discriminate].
  intros [= <-]. cbn [global_cache first].
  pose proof (evict_until_keeps I4 size remove_oldest_I4 _ _ _ H4 He) as H4'.
  pose proof (evict_until_keeps
                (fun c => forall n, In n (first c) -> In n (first (global_cache g))) size
                (fun c Hc n Hn => Hc n (remove_oldest_sub c n Hn))
                _ _ _ (fun n Hn => Hn) He) as Hsub.
  eexists _, (first cache'). split; [reflexivity|]. split; [reflexivity|].
  split; [exact Hsub|]. split.
  - unfold I4. cbn [first map url]. split.
    + intros H. now inversion H.
    + intros H. constructor; [exact H|exact H4'].
  - intros Hroom. destruct (length (first (global_cache g))); cbn [evict_until] in He;
      rewrite (proj2 (Z.gtb_ltb _ _)) in He || idtac;
      destruct (Z.gtb_spec (to_int (current_size (global_cache g) + size)) MAX_CACHE_SIZE);
      try lia; now injection He as <-.
Qed.

(** C3, as the code has it.  [add_to_cache] never looks for the key: each
    admission links a new entry under the key of its uri.  From a store
    whose keys are pairwise distinct, a lookup and an eviction keep them so;
    an admission keeps them so exactly when no entry it keeps has the key,
    hence when no entry of the store has it; and when an entry of the store
    has the key and the new object fits beside the entries, the store holds
    two entries under that key afterwards. *)
Theorem keys_stay_distinct (g : globals) :
  I4 (global_cache g) ->
  (forall uri, I4 (global_cache (snd (check_cache g uri)))) /\
  I4 (remove_oldest (global_cache g)) /\
  (forall uri buffer size g',
     size <= MAX_OBJECT_SIZE ->
     add_to_cache g uri buffer size = Some g' ->
     (exists new_node kept,
        first (global_cache g') = new_node :: kept /\
        url new_node = cstr uri /\
        (forall n, In n kept -> In n (first (global_cache g))) /\
        (I4 (global_cache g') <-> ~ In (cstr uri) (map url kept))) /\
     ((forall n, In n (first (global_cache g)) -> url n <> cstr uri) ->
      I4 (global_cache g')) /\
     (In (cstr uri) (map url (first (global_cache g))) ->
      to_int (current_size (global_cache g) + size) <= MAX_CACHE_SIZE ->
      ~ I4 (global_cache g'))).
Proof.
  intros H4. split; [|split].
  - intros uri. unfold I4.
    destruct (check_cache_fields g uri) as (-> & _). exact H4.
  - now apply remove_oldest_I4.
  - intros uri buffer size g' Hsize Hadd.
    destruct (add_to_cache_keys g g' uri buffer size H4 Hsize Hadd)
      as (new_node & kept & Hfirst & Hurl & Hsub & Hiff & Hroom).
    split; [|split].
    + exists new_node, kept. auto.
    + intros Hfresh. apply Hiff. intros Hin.
      apply in_map_iff in Hin. destruct Hin as (n & Hu & Hn).
      now apply (Hfresh n (Hsub n Hn)).
    + intros Hin Hfit H. apply Hiff in H. apply H. now rewrite (Hroom Hfit).
Qed.

Lemma keys_stay_distinct_witness :
  ~ I4 (global_cache
          {| global_cache :=
               {| first := [mk_node (lit "http://h/x") (lit "B") 1 2;
                            mk_node (lit "http://h/x") (lit "A") 1 1];
                  current_size := 2 |};
             access_counter := 2 |}) /\
  I4 (global_cache
        {| global_cache :=
             {| first := [mk_node (lit "http://h/y") (lit "B") 1 2;
                          mk_node (lit "http://h/x") (lit "A") 1 1];
                current_size := 2 |};
           access_counter := 2 |}).
Proof.
  destruct (keys_stay_distinct (single (lit "http://h/x") (lit "A") 1)) as (_ & _ & H).
  { repeat constructor. intros []. }
  split.
  - apply (H (lit "http://h/x") (lit "B") 1); [unfold MAX_OBJECT_SIZE; lia|reflexivity| |].
    + now left.
    + vm_compute. discriminate.
  - apply (H (lit "http://h/y") (lit "B") 1); [unfold MAX_OBJECT_SIZE; lia|reflexivity|].
    intros n [<-|[]]. discriminate.
Defined.

(** C3, as stated, fails: two admissions under one key, from the initial
    state, leave two entries with that key. *)
Lemma duplicate_admission :
  let k := lit "http://h/x" in
  let g1 := {| global_cache :=
                 {| first := [mk_node k (lit "A") 1 1]; current_size := 1 |};
               access_counter := 1 |} in
  let g2 := {| global_cache :=
                 {| first := [mk_node k (lit "A") 1 2; mk_node k (lit "A") 1 1];
                    current_size := 2 |};
               access_counter := 2 |} in
  add_to_cache startup k (lit "A") 1 = Some g1 /\
  add_to_cache g1 k (lit "A") 1 = Some g2 /\
  reachable g2 /\
  ~ I4 (global_cache g2).
Proof.
  intros k g1 g2.
  assert (H1 : add_to_cache startup k (lit "A") 1 = Some g1) by reflexivity.
  assert (H2 : add_to_cache g1 k (lit "A") 1 = Some g2) by reflexivity.
  split; [exact H1|]. split; [exact H2|]. split.
  - apply (reach_admit g1 k (lit "A") 1); [|lia|exact H2].
    apply (reach_admit startup k (lit "A") 1); [exact reach_startup|lia|exact H1].
  - unfold I4. cbn [g2 global_cache first map url].
    intros H. inversion H as [|x l Hnotin _]. apply Hnotin. now left.
Qed.

(** C2 fails on the code at this input: the cache holds one entry, under the
    key [http://h/ab]; the lookup of [http://h/a/] returns that entry, whose
    key is neither the query nor the query without its last slash. *)
Theorem lookup_hits_on_prefix :
  let g := {| global_cache :=
                {| first := [mk_node (lit "http://h/ab") (lit "B") 1 1];
                   current_size := 1 |};
              access_counter := 1 |} in
  add_to_cache startup (lit "http://h/ab") (lit "B") 1 = Some g /\
  fst (check_cache g (lit "http://h/a/"))
    = Some (mk_node (lit "http://h/ab") (lit "B") 1 2) /\
  lit "http://h/ab" <> lit "http://h/a/" /\
  lit "http://h/ab" <> lit "http://h/a".
Proof.
  cbv zeta. split; [reflexivity|]. split; [reflexivity|].
  split; discriminate.
Qed.

(** ** The stamps *)

Lemma update_counter_next (counter : Z) :
  in_int counter -> counter < INT_MAX -> update_counter counter = counter + 1.
Proof.
  intros Hint Hlt. unfold update_counter. apply to_int_id.
  range_lia.
Qed.

(** A lookup that finds a node stamps it with the next value of the counter;
    one that finds none leaves the counter. *)
Lemma walk_stamp (l : list cache_node_t) (uri : list ascii) (counter : Z) :
  counter <= update_counter counter ->
  Forall (fun n => access_time n <= counter) l ->
  match walk l uri counter with
  | (Some n, l', counter') =>
      access_time n = update_counter counter /\
      counter' = update_counter counter /\
      Forall (fun n => access_time n <= counter') l'
  | (None, l', counter') =>
      counter' = counter /\ Forall (fun n => access_time n <= counter') l'
  end.
Proof.
  intros Hup. induction 1 as [|current rest Hc Hrest IH]; cbn [walk]; [auto|].
  destruct (url_matches (url current) uri).
  - cbn [stamp access_time]. repeat split. constructor; cbn [stamp access_time]; [lia|].
    eapply Forall_impl; [|exact Hrest]. cbv beta. intros n Hn. lia.
  - destruct (walk rest uri counter) as [[[n|] rest'] counter'].
    + destruct IH as (Ht & Hc' & Hall). repeat split; auto.
      constructor; [lia|exact Hall].
    + destruct IH as (Hc' & Hall). split; [exact Hc'|].
      constructor; [lia|exact Hall].
Qed.

Lemma check_cache_stamp (g : globals) (uri : list ascii) :
  in_int (access_counter g) -> access_counter g < INT_MAX -> stamped_before g ->
  match check_cache g uri with
  | (Some n, g') =>
      access_time n = access_counter g + 1 /\
      access_counter g' = access_counter g + 1 /\ stamped_before g'
  | (None, g') =>
      access_counter g' = access_counter g /\ stamped_before g'
  end.
Proof.
  intros Hint Hlt Hb. unfold check_cache, stamped_before in *.
  pose proof (walk_stamp (first (global_cache g)) uri (access_counter g)) as H.
  rewrite (update_counter_next _ Hint Hlt) in H.
  specialize (H ltac:(lia) Hb).
  destruct (walk _ uri _) as [[[n|] l] counter]; cbn [global_cache first access_counter];
    exact H.
Qed.

(** A hit raises the stamp of its entry above the stamp of every entry. *)
Lemma hit_raises_stamp (g g' : globals) (uri : list ascii) (found : cache_node_t) :
  in_int (access_counter g) -> access_counter g < INT_MAX -> stamped_before g ->
  check_cache g uri = (Some found, g') ->
  exists before n after,
    first (global_cache g) = before ++ n :: after /\
    first (global_cache g') = before ++ found :: after /\
    found = stamp n (access_counter g + 1) /\
    forall m, In m (first (global_cache g)) -> access_time m < access_time found.
Proof.
  intros Hint Hlt Hb. unfold check_cache.
  destruct (walk _ uri _) as [[r l] c] eqn:Hw. intros [= -> <-].
  destruct (walk_hit _ _ _ _ _ _ Hw) as (before & n & after & Hl & -> & -> & _).
  rewrite (update_counter_next _ Hint Hlt).
  exists before, n, after. cbn [global_cache first]. repeat split; auto.
  intros m Hm. cbn [stamp access_time].
  apply (proj1 (Forall_forall _ _) Hb) in Hm. lia.
Qed.

Lemma add_to_cache_stamp (g g' : globals) (uri buffer : list ascii) (size : Z) :
  in_int (access_counter g) -> access_counter g < INT_MAX -> stamped_before g ->
  add_to_cache g uri buffer size = Some g' ->
  stamped_before g' /\
  ((stamp_of_admit g' size = [] /\ access_counter g' = access_counter g) \/
   (stamp_of_admit g' size = [access_counter g + 1] /\
    access_counter g' = access_counter g + 1)).
Proof.
  intros Hint Hlt Hb. unfold add_to_cache, stamp_of_admit.
  destruct (size >? MAX_OBJECT_SIZE); [intros [= <-]; auto|].
  destruct (evict_until _ _ size) as [cache'|] eqn:He; [|discriminate].
  intros [= <-]. cbn [global_cache first access_counter access_time].
  rewrite (update_counter_next _ Hint Hlt).
  split; [|right; auto].
  unfold stamped_before. cbn [global_cache first access_counter].
  constructor; [cbn [access_time]; lia|].
  pose proof (evict_until_keeps
                (fun c => forall n, In n (first c) -> access_time n <= access_counter g)
                size (fun c Hc n Hn => Hc n (remove_oldest_sub c n Hn)) _ _ _
                (proj1 (Forall_forall _ _) Hb) He) as Hb'.
  apply Forall_forall. intros n Hn. specialize (Hb' n Hn). lia.
Qed.

(** C6, as the code has it.  In a run of lookups and admissions that do not
    overlap (each call of [check_cache] and [add_to_cache] ends before the
    next begins), from a store no entry of which carries a stamp beyond the
    counter, and during which the counter, an [int], stays within
    [INT_MAX], every hit and every admission stamps its entry with a value
    greater than the counter before it: the stamps of the run are strictly
    increasing, each is greater than the [access_time] every entry had at
    the start, and at the end no entry carries a stamp beyond the counter.
    Lookups that overlap are another matter
    ([overlapping_hits_share_a_stamp]). *)
Theorem stamps_strictly_increase (ops : list op) (g g' : globals) (stamps : list Z) :
  in_int (access_counter g) ->
  access_counter g + Z.of_nat (length ops) <= INT_MAX ->
  stamped_before g ->
  run ops g = Some (g', stamps) ->
  increasing_from (access_counter g) stamps /\
  stamped_before g' /\
  access_counter g <= access_counter g' <= access_counter g + Z.of_nat (length ops).
Proof.
  revert g g' stamps.
  induction ops as [|o more IH]; intros g g' stamps Hint Hmax Hb; cbn [run].
  - intros [= <- <-]. cbn. repeat split; auto; lia.
  - assert (Hlt : access_counter g < INT_MAX)
      by (cbn [length] in Hmax; lia).
    assert (Hlen : Z.of_nat (length (o :: more)) = Z.of_nat (length more) + 1)
      by (cbn [length]; lia).
    rewrite Hlen in *. clear Hlen.
    assert (Hnext : forall g1, access_counter g <= access_counter g1 <= access_counter g + 1 ->
              in_int (access_counter g1) /\
              access_counter g1 + Z.of_nat (length more) <= INT_MAX).
    { intros g1 Hg1. range_lia. }
    destruct o as [uri|uri buffer size].
    + pose proof (check_cache_stamp g uri Hint Hlt Hb) as Hstep.
      destruct (check_cache g uri) as [found g1].
      destruct (run more g1) as [[g2 rest]|] eqn:Hrun; [|discriminate].
      intros [= <- <-].
      destruct found as [n|]; cbn [stamp_of_lookup app].
      * destruct Hstep as (Ht & Hc & Hb1).
        destruct (Hnext g1 ltac:(lia)) as [Hint1 Hmax1].
        destruct (IH g1 g2 rest Hint1 Hmax1 Hb1 Hrun) as (Hinc & Hb2 & Hr).
        rewrite Hc in *. rewrite Ht. cbn [increasing_from].
        repeat split; auto; lia.
      * destruct Hstep as (Hc & Hb1).
        destruct (Hnext g1 ltac:(lia)) as [Hint1 Hmax1].
        destruct (IH g1 g2 rest Hint1 Hmax1 Hb1 Hrun) as (Hinc & Hb2 & Hr).
        rewrite Hc in *. repeat split; auto; lia.
    + destruct (add_to_cache g uri buffer size) as [g1|] eqn:Hadd; [|discriminate].
      destruct (run more g1) as [[g2 rest]|] eqn:Hrun; [|discriminate].
      intros [= <- <-].
      destruct (add_to_cache_stamp g g1 uri buffer size Hint Hlt Hb Hadd)
        as (Hb1 & [[Hs Hc]|[Hs Hc]]); rewrite Hs; cbn [app];
        destruct (Hnext g1 ltac:(lia)) as [Hint1 Hmax1];
        destruct (IH g1 g2 rest Hint1 Hmax1 Hb1 Hrun) as (Hinc & Hb2 & Hr);
        rewrite Hc in *; cbn [increasing_from]; repeat split; auto; lia.
Qed.

Lemma stamps_strictly_increase_witness :
  let k := lit "http://h/x" in
  increasing_from 0 [1; 2; 3] /\
  stamped_before (single k (lit "A") 3) /\
  0 <= 3 <= 0 + 5.
Proof.
  intros k.
  apply (stamps_strictly_increase
           [Admit k (lit "A") 1; Lookup k; Admit (lit "http://h/y") (lit "B") 102401;
            Lookup (lit "http://h/z"); Lookup k]
           startup (single k (lit "A") 3) [1; 2; 3]).
  - unfold in_int, INT_MIN, INT_MAX. simpl. lia.
  - unfold INT_MAX. simpl. lia.
  - constructor.
  - reflexivity.
Defined.

Lemma url_matches_refl (k : list ascii) : url_matches k k = true.
Proof. apply url_matches_spec. now left. Qed.

(** A lookup of the key of [single] stamps its entry with the next value. *)
Lemma single_hit (k body : list ascii) (t : Z) :
  check_cache (single k body t) k
  = (Some (mk_node k body 1 (update_counter t)),
     single k body (update_counter t)).
Proof.
  unfold check_cache, single. cbn [global_cache first access_counter walk url].
  rewrite url_matches_refl. reflexivity.
Qed.

(** Lookups take the counter to every value up to [INT_MAX]. *)
Lemma single_reachable (t : Z) :
  0 <= t -> t + 1 <= INT_MAX ->
  reachable (single (lit "http://h/x") (lit "A") (t + 1)).
Proof.
  intros Ht. pattern t. apply natlike_ind; [| |exact Ht]; clear t Ht.
  - intros _. apply (reach_admit startup (lit "http://h/x") (lit "A") 1);
      [exact reach_startup|lia|reflexivity].
  - intros t Ht IH Hmax.
    assert (Hr : reachable (single (lit "http://h/x") (lit "A") (t + 1)))
      by (apply IH; lia).
    apply (reach_lookup _ (lit "http://h/x")) in Hr.
    rewrite single_hit in Hr. cbn [snd] in Hr.
    rewrite update_counter_next in Hr.
    + now replace (Z.succ t + 1) with (t + 1 + 1) by lia.
    + range_lia.
    + unfold INT_MAX in *. lia.
Qed.

(** C6, as stated, fails: when the counter holds [INT_MAX], a state that
    lookups reach, the next hit stamps its entry with [INT_MIN], below the
    stamp the entry had. *)
Lemma stamp_wraps_at_INT_MAX :
  let k := lit "http://h/x" in
  let g := single k (lit "A") 2147483647 in
  reachable g /\
  fst (check_cache g k) = Some (mk_node k (lit "A") 1 (-2147483648)) /\
  access_counter (snd (check_cache g k)) = -2147483648.
Proof.
  intros k g. split.
  - apply (single_reachable 2147483646); unfold INT_MAX; lia.
  - unfold g. rewrite single_hit. split; reflexivity.
Qed.

(** ** Two lookups at once *)

(** When nothing runs between its halves, the two halves are the lookup. *)
Lemma check_cache_in_two_halves (g : globals) (uri : list ascii) :
  snd (check_cache g uri) = hit_writes g uri (hit_reads g).
Proof.
  unfold check_cache, hit_writes, hit_reads.
  destruct g as [[l size] counter]. cbn [global_cache first current_size access_counter].
  assert (H : walk l uri counter =
              (fst (fst (walk l uri counter)),
               if existsb (fun n => url_matches (url n) uri) l
               then stamp_first l uri (to_int (counter + 1)) else l,
               if existsb (fun n => url_matches (url n) uri) l
               then to_int (counter + 1) else counter)).
  { induction l as [|current rest IH]; cbn [walk existsb stamp_first]; [reflexivity|].
    destruct (url_matches (url current) uri); cbn [orb]; [reflexivity|].
    destruct (walk rest uri counter) as [[found rest'] counter'].
    cbn [fst] in *. injection IH as -> ->.
    destruct (existsb _ rest); reflexivity. }
  rewrite H. cbn [snd].
  destruct (existsb _ l); reflexivity.
Qed.

(** Two lookups that overlap, each on its own entry: both read the counter
    before either writes it, and the two entries end with the same stamp,
    far below [INT_MAX]; taken one after the other the same lookups give
    two stamps. *)
Lemma overlapping_hits_share_a_stamp :
  let seen_x := hit_reads two_entries in
  let seen_y := hit_reads two_entries in
  let g := hit_writes (hit_writes two_entries (lit "/x") seen_x) (lit "/y") seen_y in
  let g' := snd (check_cache (snd (check_cache two_entries (lit "/x"))) (lit "/y")) in
  map access_time (first (global_cache g)) = [3; 3] /\ access_counter g = 3 /\
  map access_time (first (global_cache g')) = [4; 3] /\ access_counter g' = 4.
Proof. vm_compute. repeat split; reflexivity. Qed.

(** A lookup that writes after later lookups have come and gone takes the
    counter back: the counter ends below a stamp that an entry carries. *)
Lemma late_write_lowers_the_counter :
  let seen_x := hit_reads two_entries in
  let g1 := snd (check_cache (snd (check_cache two_entries (lit "/y"))) (lit "/y")) in
  let g := hit_writes g1 (lit "/x") seen_x in
  access_counter g1 = 4 /\ access_counter g = 3 /\
  map access_time (first (global_cache g)) = [4; 3] /\
  ~ stamped_before g.
Proof.
  vm_compute. repeat split; try reflexivity.
  intros H. inversion H as [|n l Hn _]; subst. apply Hn. reflexivity.
Qed.

(** ** The URI parser *)

Lemma host_span_all (h : list ascii) :
  Forall (fun c => c <> "/"%char /\ c <> ":"%char /\ c <> NUL) h ->
  host_span h = length h.
Proof.
  induction 1 as [|c h (H1 & H2 & H3) _ IH]; cbn [host_span length]; [reflexivity|].
  apply Ascii.eqb_neq in H1, H2, H3. rewrite H1, H2, H3. cbn. now rewrite IH.
Qed.

Lemma strstr_slashes_none (h : list ascii) :
  Forall (fun c => c <> "/"%char /\ c <> ":"%char /\ c <> NUL) h ->
  strstr_slashes h = None.
Proof.
  induction 1 as [|c h (H1 & _ & H3) _ IH]; cbn [strstr_slashes]; [reflexivity|].
  apply Ascii.eqb_neq in H1, H3. rewrite H1, H3, IH. reflexivity.
Qed.

Lemma host_chars_nul_free (h : list ascii) :
  Forall (fun c => c <> "/"%char /\ c <> ":"%char /\ c <> NUL) h -> nul_free h.
Proof.
  unfold nul_free. intros H Hin.
  apply (proj1 (Forall_forall _ _) H) in Hin. tauto.
Qed.

(** The parse of a uri that is a host and nothing after it, once the scheme
    is stepped over. *)
Lemma extract_uri_host_only (start h : list ascii) :
  Forall (fun c => c <> "/"%char /\ c <> ":"%char /\ c <> NUL) h ->
  match strstr_slashes (start ++ h) with
  | Some off => skipn (off + 2) (start ++ h)
  | None => start ++ h
  end = h ->
  extract_uri (start ++ h) =
    {| host := h; path := []; port := lit "80";
       request_header :=
         lit "GET " ++ lit " HTTP/1.0" ++ CRLF ++ lit "Host: " ++ h ++ CRLF |}.
Proof.
  intros Hh Hstart. unfold extract_uri. rewrite Hstart.
  rewrite (host_span_all h Hh), skipn_all, firstn_all.
  cbn [hd cstr]. change (NUL =? ":")%char with false. cbv iota.
  unfold fmt_s. rewrite (cstr_nul_free h (host_chars_nul_free h Hh)).
  reflexivity.
Qed.

(** C8 fails on the code: for a uri whose host runs to the end of the
    string, with the scheme [http://] or with none, [extract_uri] leaves
    [path] empty and the request line it builds is [GET  HTTP/1.0]. *)
Theorem extract_uri_empty_path (h : list ascii) :
  Forall (fun c => c <> "/"%char /\ c <> ":"%char /\ c <> NUL) h ->
  extract_uri (lit "http://" ++ h) =
    {| host := h; path := []; port := lit "80";
       request_header :=
         lit "GET " ++ lit " HTTP/1.0" ++ CRLF ++ lit "Host: " ++ h ++ CRLF |} /\
  extract_uri h =
    {| host := h; path := []; port := lit "80";
       request_header :=
         lit "GET " ++ lit " HTTP/1.0" ++ CRLF ++ lit "Host: " ++ h ++ CRLF |}.
Proof.
  intros Hh. split.
  - apply extract_uri_host_only; [exact Hh|]. reflexivity.
  - apply (extract_uri_host_only [] h Hh).
    cbn [app]. now rewrite (strstr_slashes_none h Hh).
Qed.

Lemma extract_uri_empty_path_witness :
  path (extract_uri (lit "http://example.com")) = [] /\
  request_header (extract_uri (lit "http://example.com"))
    = lit "GET  HTTP/1.0" ++ CRLF ++ lit "Host: example.com" ++ CRLF.
Proof.
  destruct (extract_uri_empty_path (lit "example.com")) as [H _].
  - repeat constructor; discriminate.
  - change (lit "http://" ++ lit "example.com") with (lit "http://example.com") in H.
    rewrite H. split; reflexivity.
Defined.

(** The branch for a port does set the default path. *)
Lemma extract_uri_port_default_path :
  extract_uri (lit "http://example.com:8080") =
    {| host := lit "example.com"; path := lit "/"; port := lit "8080";
       request_header :=
         lit "GET / HTTP/1.0" ++ CRLF ++ lit "Host: example.com" ++ CRLF |}.
Proof. reflexivity. Qed.

(** ** The header rewriter *)

(** C9 fails on the code at this input: the client sends the two lines
    [Ho NUL CR LF] and [st: evil CR LF], then the empty line.  Neither line
    starts with one of the four names; the first is written up to its NUL,
    the second in full, and the origin receives a second [Host] header. *)
Theorem nul_byte_splices_host_header :
  let lines := [lit "Ho" ++ [NUL] ++ CRLF; lit "st: evil" ++ CRLF; CRLF] in
  map suppressed lines = [false; false; false] /\
  origin_request (lit "http://h/") lines =
    lit "GET / HTTP/1.0" ++ CRLF ++ lit "Host: h" ++ CRLF ++
    user_agent ++ connection_hdr ++ proxy_connection ++
    lit "Host: evil" ++ CRLF ++ CRLF /\
  count_header (lit "Host:") (origin_request (lit "http://h/") lines) = 2%nat /\
  relay [lit "Ho" ++ [NUL] ++ CRLF] = lit "Ho".
Proof.
  cbv zeta. repeat split; reflexivity.
Qed.

(** *** The header block for lines of text *)












(** ** The request pipeline *)

Lemma same_true {A : Type} (dec : forall x y : A, {x = y} + {x <> y}) (x y : A) :
  same dec x y = true -> x = y.
Proof. unfold same. destruct (dec x y); [trivial|discriminate]. Qed.


(** C1 fails on the code at this input: the origin sends 100 lines of 1024
    bytes, 102400 bytes in all.  The client receives them all; the last line
    is not copied to [object_buffer], since 101376 + 1024 is not below
    [MAX_OBJECT_SIZE]; [add_to_cache] is called with 102400 bytes of which the
    last 1024 are the zeros the buffer was initialised with, and these are
    the bytes the entry holds. *)
Theorem tee_drops_chunk_at_limit :
  let chunk := repeat "A"%char 1023 ++ [LF] in
  let origin := repeat chunk 100 in
  let staged := concat (repeat chunk 99) ++ repeat NUL 1024 in
  let t := process_request [lit "GET http://h/x HTTP/1.0" ++ CRLF; CRLF]
             (mk_request_line [] [] []) origin startup in
  to_client t = concat origin /\
  Z.of_nat (length (concat origin)) = MAX_OBJECT_SIZE /\
  admitted t = Some (lit "http://h/x", staged, 102400) /\
  globals_after t =
    Some {| global_cache :=
              {| first := [mk_node (lit "http://h/x") staged 102400 1];
                 current_size := 102400 |};
            access_counter := 1 |} /\
  staged <> concat origin.
Proof.
  intros chunk origin staged t.
  split; [apply (same_true bytes_eq_dec); vm_compute; reflexivity|].
  split; [vm_compute; reflexivity|].
  split; [apply (same_true (option_eq_dec admitted_eq_dec)); vm_compute; reflexivity|].
  split; [apply (same_true (option_eq_dec globals_eq_dec)); vm_compute; reflexivity|].
  assert (H : last staged NUL <> last (concat origin) NUL)
    by (vm_compute; discriminate).
  intros E. apply H. exact (f_equal (fun l => last l NUL) E).
Qed.





(** * Further properties of the code *)

(** ** Lookup *)

(** X1.  A lookup that finds nothing changes neither the store nor the
    counter, and no entry passes the test.  A lookup that finds an entry
    finds the first one from the head that passes the test; that entry gets
    the next value of the counter as its stamp, and nothing else changes:
    the other entries, their order and [current_size] stay. *)
Theorem lookup_finds_first_match (g : globals) (uri : list ascii) :
  match check_cache g uri with
  | (None, g') =>
      g' = g /\
      forall n, In n (first (global_cache g)) -> url_matches (url n) uri = false
  | (Some found, g') =>
      exists before n after,
        first (global_cache g) = before ++ n :: after /\
        (forall m, In m before -> url_matches (url m) uri = false) /\
        url_matches (url n) uri = true /\
        found = stamp n (update_counter (access_counter g)) /\
        g' = {| global_cache :=
                  {| first := before ++ found :: after;
                     current_size := current_size (global_cache g) |};
                access_counter := update_counter (access_counter g) |}
  end.
Proof.
  unfold check_cache.
  destruct (walk (first (global_cache g)) uri (access_counter g))
    as [[[found|] l] counter] eqn:Hw.
  - destruct (walk_hit _ _ _ _ _ _ Hw)
      as (before & n & after & Hl & -> & Hf & -> & Hn & Hb).
    exists before, n, after. repeat split; auto.
  - pose proof (walk_miss (first (global_cache g)) uri (access_counter g)) as H.
    rewrite Hw in H. destruct (H eq_refl) as [[= -> ->] Hall].
    split; [destruct g as [[l c] a]; reflexivity|exact Hall].
Qed.

Lemma length_last_split (l : list ascii) (k : nat) (d : ascii) :
  length l = S k -> l = firstn k l ++ [nth k l d].
Proof.
  revert k. induction l as [|x l IH]; intros k Hl; [discriminate|].
  destruct k as [|k].
  - destruct l; [reflexivity|discriminate].
  - cbn [firstn nth app]. f_equal. apply IH. now injection Hl.
Qed.

(** X2.  On keys and queries without NUL, the test of [check_cache] holds
    exactly when the key is the query, or the query ends in a slash and the
    query without that slash is a prefix of the key. *)
Theorem match_is_equal_or_slash_prefix (key query : list ascii) :
  nul_free key -> nul_free query ->
  url_matches key query = true <->
  key = query \/ exists p s, query = p ++ ["/"%char] /\ key = p ++ s.
Proof.
  intros Hk Hq. rewrite url_matches_spec. unfold strlen.
  rewrite (cstr_nul_free key Hk), (cstr_nul_free query Hq).
  split; intros [H|H]; try (now left); right.
  - destruct H as (k & Hlen & Hlast & Hpre).
    exists (firstn k query), (skipn k key). split.
    + rewrite <- Hlast. now apply length_last_split.
    + rewrite Hpre. symmetry. apply firstn_skipn.
  - destruct H as (p & s & -> & ->).
    exists (length p). repeat split.
    + rewrite length_app. cbn. lia.
    + rewrite app_nth2, Nat.sub_diag by lia. reflexivity.
    + rewrite !firstn_app, Nat.sub_diag, !firstn_all. reflexivity.
Qed.

Lemma match_is_equal_or_slash_prefix_witness :
  url_matches (lit "http://h/a/index.html") (lit "http://h/a/") = true <->
  lit "http://h/a/index.html" = lit "http://h/a/" \/
  exists p s, lit "http://h/a/" = p ++ ["/"%char] /\
              lit "http://h/a/index.html" = p ++ s.
Proof.
  apply (match_is_equal_or_slash_prefix (lit "http://h/a/index.html") (lit "http://h/a/"));
    unfold nul_free; cbn; intuition discriminate.
Defined.

Lemma walk_some (l : list cache_node_t) (uri : list ascii) (counter : Z)
    (n : cache_node_t) :
  In n l -> url_matches (url n) uri = true ->
  exists found, fst (fst (walk l uri counter)) = Some found.
Proof.
  intros Hin Hm.
  destruct (fst (fst (walk l uri counter))) as [found|] eqn:E; [eauto|].
  destruct (walk_miss l uri counter E) as [_ Hall].
  rewrite (Hall n Hin) in Hm. discriminate.
Qed.

(** X3.  When the store holds an entry under a key, the lookup of that key
    finds an entry, and so does the lookup of the key followed by a slash;
    the entry found passes the test for the query. *)
Theorem cached_key_is_found (g : globals) (n : cache_node_t) (key : list ascii) :
  In n (first (global_cache g)) -> url n = key -> nul_free key ->
  (exists found, fst (check_cache g key) = Some found /\
                 url_matches (url found) key = true) /\
  (exists found, fst (check_cache g (key ++ ["/"%char])) = Some found /\
                 url_matches (url found) (key ++ ["/"%char]) = true).
Proof.
  intros Hin Hu Hk.
  assert (Hfound : forall q, url_matches key q = true ->
            exists found, fst (check_cache g q) = Some found /\
                          url_matches (url found) q = true).
  { intros q Hm. rewrite <- Hu in Hm.
    destruct (walk_some _ q (access_counter g) n Hin Hm) as [found Hf].
    unfold check_cache.
    destruct (walk (first (global_cache g)) q (access_counter g))
      as [[r l] c] eqn:Hw. cbn [fst] in Hf |- *. subst r.
    destruct (walk_hit _ _ _ _ _ _ Hw) as (before & m & after & _ & _ & -> & _ & Hmm & _).
    exists (stamp m (update_counter (access_counter g))). split; [reflexivity|exact Hmm]. }
  split; apply Hfound.
  - apply url_matches_refl.
  - apply url_matches_spec. right. exists (length key).
    unfold strlen. rewrite (cstr_nul_free key Hk), cstr_app_nul_free by exact Hk.
    cbn [cstr]. change ("/" =? NUL)%char with false. cbv iota.
    repeat split.
    + rewrite length_app. cbn. lia.
    + rewrite app_nth2, Nat.sub_diag by lia. reflexivity.
    + rewrite firstn_app, Nat.sub_diag, !firstn_all. cbn [firstn]. now rewrite app_nil_r.
Qed.

Lemma cached_key_is_found_witness :
  exists found,
    fst (check_cache (single (lit "http://h:80/a") (lit "B") 1) (lit "http://h:80/a" ++ ["/"%char]))
      = Some found /\
    url_matches (url found) (lit "http://h:80/a" ++ ["/"%char]) = true.
Proof.
  apply (cached_key_is_found (single (lit "http://h:80/a") (lit "B") 1)
           (mk_node (lit "http://h:80/a") (lit "B") 1 1) (lit "http://h:80/a")).
  - now left.
  - reflexivity.
  - unfold nul_free; cbn; intuition discriminate.
Defined.

(** ** Admission *)

(** What [add_to_cache] returns when it admits. *)
Lemma add_to_cache_shape (g g' : globals) (uri buffer : list ascii) (size : Z) :
  size <= MAX_OBJECT_SIZE ->
  add_to_cache g uri buffer size = Some g' ->
  exists cache',
    evict_until (length (first (global_cache g))) (global_cache g) size = Some cache' /\
    g' = {| global_cache :=
              {| first :=
                   {| url := cstr uri;
                      content := firstn (Z.to_nat size) buffer;
                      content_size := size;
                      access_time := update_counter (access_counter g) |}
                   :: first cache';
                 current_size := to_int (current_size cache' + size) |};
            access_counter := update_counter (access_counter g) |}.
Proof.
  intros Hsize. unfold add_to_cache.
  destruct (Z.gtb_spec size MAX_OBJECT_SIZE) as [Hbig|_]; [lia|].
  destruct (evict_until _ _ size) as [cache'|]; [|discriminate].
  intros [= <-]. eauto.
Qed.

(** X4.  An object that is admitted is found by the next lookup of its uri:
    the lookup returns the entry just made, with the key of the uri, the
    first [size] bytes of the buffer and the size, stamped anew. *)
Theorem lookup_after_admission (g g' : globals) (uri buffer : list ascii) (size : Z) :
  size <= MAX_OBJECT_SIZE ->
  add_to_cache g uri buffer size = Some g' ->
  fst (check_cache g' uri) =
    Some {| url := cstr uri;
            content := firstn (Z.to_nat size) buffer;
            content_size := size;
            access_time := update_counter (update_counter (access_counter g)) |}.
Proof.
  intros Hsize Hadd.
  destruct (add_to_cache_shape g g' uri buffer size Hsize Hadd) as (cache' & _ & ->).
  unfold check_cache. cbn [global_cache first access_counter walk url].
  assert (Hm : url_matches (cstr uri) uri = true).
  { apply url_matches_spec. left. apply cstr_idem. }
  rewrite Hm. reflexivity.
Qed.

Lemma lookup_after_admission_witness :
  fst (check_cache (single (lit "http://h/x") (lit "A") 1) (lit "http://h/x")) =
    Some {| url := cstr (lit "http://h/x");
            content := firstn (Z.to_nat 1) (lit "A");
            content_size := 1;
            access_time := update_counter (update_counter 0) |}.
Proof.
  apply (lookup_after_admission startup (single (lit "http://h/x") (lit "A") 1)
           (lit "http://h/x") (lit "A") 1).
  - unfold MAX_OBJECT_SIZE. lia.
  - reflexivity.
Defined.

(** The nodes the loop removes are, each when it goes, of least stamp: none
    of them is younger than a node that stays. *)
Lemma evict_until_lru (size : Z) (fuel : nat) (cache cache' : cache_manager) :
  evict_until fuel cache size = Some cache' ->
  exists evicted,
    Permutation (first cache) (evicted ++ first cache') /\
    (forall e k, In e evicted -> In k (first cache') ->
                 access_time e <= access_time k) /\
    (to_int (current_size cache + size) <= MAX_CACHE_SIZE -> evicted = []).
Proof.
  revert cache. induction fuel as [|fuel IH]; intros cache; cbn [evict_until];
    destruct (Z.gtb_spec (to_int (current_size cache + size)) MAX_CACHE_SIZE) as [Hgt|Hle];
    try discriminate;
    try (intros [= <-]; exists []; repeat split; auto; intros e k []).
  intros He.
  destruct (IH _ He) as (evicted & Hperm & Hlru & _).
  destruct (first cache) as [|head rest] eqn:E.
  - rewrite (remove_oldest_empty cache E), E in Hperm.
    exists evicted. repeat split; auto. lia.
  - destruct (remove_oldest_cons cache) as (before & victim & after & Hl & Hr & Hmin & _);
      [congruence|].
    rewrite Hr in Hperm. cbn [first] in Hperm. rewrite E in Hl, Hmin.
    exists (victim :: evicted). split; [|split].
    + rewrite Hl. cbn [app]. apply Permutation_sym, Permutation_cons_app.
      apply Permutation_sym. exact Hperm.
    + intros e k [<-|He'] Hk; [|now apply Hlru].
      apply Hmin. rewrite Hl.
      assert (Hin : In k (before ++ after)).
      { eapply Permutation_in; [apply Permutation_sym; exact Hperm|].
        apply in_or_app. now right. }
      rewrite in_app_iff in *. cbn [In]. tauto.
    + lia.
Qed.

(** X5.  An admission links the new entry at the head and keeps of the old
    entries all but those it evicts; no evicted entry has a stamp above that
    of an entry that stays, and when the new object fits beside the old
    entries nothing is evicted. *)
Theorem admission_evicts_least_recent
    (g g' : globals) (uri buffer : list ascii) (size : Z) :
  size <= MAX_OBJECT_SIZE ->
  add_to_cache g uri buffer size = Some g' ->
  exists new_node kept evicted,
    first (global_cache g') = new_node :: kept /\
    url new_node = cstr uri /\
    Permutation (first (global_cache g)) (evicted ++ kept) /\
    (forall e k, In e evicted -> In k kept -> access_time e <= access_time k) /\
    (to_int (current_size (global_cache g) + size) <= MAX_CACHE_SIZE ->
     evicted = []).
Proof.
  intros Hsize Hadd.
  destruct (add_to_cache_shape g g' uri buffer size Hsize Hadd) as (cache' & He & ->).
  destruct (evict_until_lru _ _ _ _ He) as (evicted & Hperm & Hlru & Hroom).
  cbn [global_cache first].
  eexists _, (first cache'), evicted. repeat split; auto.
Qed.

Lemma ten_objects_admission :
  add_to_cache ten_objects (lit "/on") (repeat "B"%char (Z.to_nat 100000)) 100000
  = Some ten_objects_after.
Proof.
  apply (same_true (option_eq_dec globals_eq_dec)). vm_compute. reflexivity.
Qed.

Lemma admission_evicts_least_recent_witness :
  exists new_node kept evicted,
    first (global_cache ten_objects_after) = new_node :: kept /\
    url new_node = cstr (lit "/on") /\
    Permutation (first (global_cache ten_objects)) (evicted ++ kept) /\
    (forall e k, In e evicted -> In k kept -> access_time e <= access_time k) /\
    (to_int (current_size (global_cache ten_objects) + 100000) <= MAX_CACHE_SIZE ->
     evicted = []).
Proof.
  apply (admission_evicts_least_recent ten_objects ten_objects_after
           (lit "/on") (repeat "B"%char (Z.to_nat 100000)) 100000).
  - unfold MAX_OBJECT_SIZE. lia.
  - exact ten_objects_admission.
Defined.

(** ** The entries *)

Lemma walk_Forall (P : cache_node_t -> Prop) (l : list cache_node_t)
    (uri : list ascii) (counter : Z) :
  (forall n t, P n -> P (stamp n t)) ->
  Forall P l -> Forall P (snd (fst (walk l uri counter))).
Proof.
  intros Hstamp. induction 1 as [|current rest Hc Hrest IH]; cbn [walk]; [constructor|].
  destruct (url_matches (url current) uri); cbn [fst snd].
  - constructor; auto.
  - destruct (walk rest uri counter) as [[found rest'] counter'].
    cbn [fst snd] in *. constructor; auto.
Qed.

(** X6.  Every entry of a store that lookups, admissions of bodies and
    evictions reach has a size between 0 and [MAX_OBJECT_SIZE], a key
    without NUL, and at most as many bytes of content as its size. *)
Theorem reachable_entries_bounded (g : globals) :
  reachable g -> Forall entry_ok (first (global_cache g)).
Proof.
  induction 1 as [|g uri _ IH|g uri buffer size g' _ IH Hsize Hadd|g _ IH].
  - constructor.
  - unfold check_cache.
    pose proof (walk_Forall entry_ok (first (global_cache g)) uri (access_counter g)) as H.
    destruct (walk _ uri _) as [[found l] counter]. cbn [snd global_cache first fst] in *.
    apply H; [|exact IH]. intros n t Hn. exact Hn.
  - destruct (Z.gtb_spec size MAX_OBJECT_SIZE) as [Hbig|Hfit].
    + unfold add_to_cache in Hadd. rewrite (proj2 (Z.gtb_lt _ _)) in Hadd by lia.
      now injection Hadd as <-.
    + destruct (add_to_cache_shape g g' uri buffer size Hfit Hadd) as (cache' & He & ->).
      cbn [global_cache first]. constructor.
      * unfold entry_ok. cbn [content_size url content].
        split; [lia|]. split; [apply cstr_is_nul_free|].
        rewrite length_firstn. lia.
      * apply Forall_forall. intros n Hn.
        pose proof (evict_until_keeps
                      (fun c => forall n, In n (first c) -> entry_ok n) size
                      (fun c Hc n Hn => Hc n (remove_oldest_sub c n Hn)) _ _ _
                      (proj1 (Forall_forall _ _) IH) He) as Hk.
        now apply Hk.
  - cbn [global_cache]. apply Forall_forall. intros n Hn.
    apply (proj1 (Forall_forall _ _) IH). now apply remove_oldest_sub.
Qed.

Lemma reachable_entries_bounded_witness :
  Forall entry_ok (first (global_cache (single (lit "http://h/x") (lit "A") 1))).
Proof.
  apply (reachable_entries_bounded _).
  apply (reach_admit startup (lit "http://h/x") (lit "A") 1);
    [exact reach_startup|lia|reflexivity].
Defined.

(** ** Eviction *)

(** X7.  Among the entries of least stamp, eviction removes the one nearest
    the head: every entry before the one removed has a greater stamp. *)
Theorem remove_oldest_takes_first_of_least (cache : cache_manager) :
  first cache <> [] ->
  exists before victim after,
    first cache = before ++ victim :: after /\
    first (remove_oldest cache) = before ++ after /\
    (forall n, In n before -> access_time victim < access_time n) /\
    (forall n, In n after -> access_time victim <= access_time n).
Proof.
  intros Hne.
  destruct (remove_oldest_cons cache Hne) as (before & victim & after & Hl & Hr & Hmin & Hfst).
  exists before, victim, after. rewrite Hr. cbn [first]. repeat split; auto.
  intros n Hn. apply Hmin. rewrite Hl, in_app_iff. cbn [In]. tauto.
Qed.

Lemma remove_oldest_takes_first_of_least_witness :
  exists before victim after,
    [mk_node (lit "a") [] 0 5; mk_node (lit "b") [] 0 3; mk_node (lit "c") [] 0 3]
      = before ++ victim :: after /\
    first (remove_oldest
             {| first := [mk_node (lit "a") [] 0 5; mk_node (lit "b") [] 0 3;
                          mk_node (lit "c") [] 0 3];
                current_size := 0 |}) = before ++ after /\
    (forall n, In n before -> access_time victim < access_time n) /\
    (forall n, In n after -> access_time victim <= access_time n).
Proof.
  apply (remove_oldest_takes_first_of_least
           {| first := [mk_node (lit "a") [] 0 5; mk_node (lit "b") [] 0 3;
                        mk_node (lit "c") [] 0 3];
              current_size := 0 |}).
  discriminate.
Defined.

(** X8.  An entry that a lookup has just found is not the next one evicted
    when the store holds another entry: when no entry carries a stamp
    beyond the counter, the counter is below [INT_MAX], and no other lookup
    overlaps this one, the eviction that follows the hit keeps the entry. *)
Theorem hit_entry_survives_eviction
    (g g' : globals) (uri : list ascii) (found : cache_node_t) :
  in_int (access_counter g) -> access_counter g < INT_MAX -> stamped_before g ->
  (2 <= length (first (global_cache g)))%nat ->
  check_cache g uri = (Some found, g') ->
  In found (first (remove_oldest (global_cache g'))).
Proof.
  intros Hint Hlt Hb Hlen Hhit.
  destruct (hit_raises_stamp g g' uri found Hint Hlt Hb Hhit)
    as (before & n & after & Hl & Hl' & Hf & Hup).
  assert (Hother : exists m, In m (before ++ after)).
  { rewrite Hl, length_app in Hlen. cbn [length] in Hlen.
    destruct before as [|m before]; [|exists m; now left].
    destruct after as [|m after]; [cbn in Hlen; lia|exists m; now left]. }
  destruct Hother as (m & Hm).
  assert (Hm' : access_time m < access_time found).
  { apply Hup. rewrite Hl, in_app_iff in *. cbn [In]. tauto. }
  destruct (remove_oldest_cons (global_cache g'))
    as (b2 & victim & a2 & Hl2 & Hr & Hmin & _).
  { rewrite Hl'. destruct before; discriminate. }
  rewrite Hr. cbn [first].
  assert (Hv : access_time victim <= access_time m).
  { apply Hmin. rewrite Hl', in_app_iff in *. cbn [In]. tauto. }
  assert (Hin : In found (b2 ++ victim :: a2)).
  { rewrite <- Hl2, Hl'. apply in_or_app. right. now left. }
  rewrite in_app_iff in *. cbn [In] in Hin.
  destruct Hin as [H|[H|H]]; auto. subst victim. lia.
Qed.

Lemma hit_entry_survives_eviction_witness :
  In (mk_node (lit "b") [] 0 6)
     (first (remove_oldest
               {| first := [mk_node (lit "a") [] 0 5; mk_node (lit "b") [] 0 6];
                  current_size := 0 |})).
Proof.
  apply (hit_entry_survives_eviction
           {| global_cache :=
                {| first := [mk_node (lit "a") [] 0 5; mk_node (lit "b") [] 0 3];
                   current_size := 0 |};
              access_counter := 5 |}
           {| global_cache :=
                {| first := [mk_node (lit "a") [] 0 5; mk_node (lit "b") [] 0 6];
                   current_size := 0 |};
              access_counter := 6 |}
           (lit "b") (mk_node (lit "b") [] 0 6)).
  - unfold in_int, INT_MIN, INT_MAX. cbn. lia.
  - unfold INT_MAX. cbn. lia.
  - repeat constructor; cbn; lia.
  - cbn. lia.
  - reflexivity.
Defined.

(** ** The response loop *)

(** The client receives every chunk read, whatever is staged. *)
Lemma tee_client (chunks : list (list ascii)) :
  forall (object_buffer client : list ascii) (total_size : Z),
    snd (tee chunks object_buffer total_size client)
    = client ++ concat (until_eof chunks).
Proof.
  induction chunks as [|c cs IH]; intros ob client total; cbn [tee].
  - cbn. now rewrite app_nil_r.
  - destruct c as [|x c].
    + cbn. now rewrite app_nil_r.
    + assert (Hn : (Z.of_nat (length (x :: c)) >? 0) = true)
        by (apply Z.gtb_lt; cbn [length]; lia).
      rewrite Hn.
      change (until_eof ((x :: c) :: cs)) with ((x :: c) :: until_eof cs).
      cbn [concat]. rewrite IH. now rewrite <- app_assoc.
Qed.


(** ** One request *)

(** [process_request] when the method is GET and the lookup finds nothing. *)
Lemma process_request_on_miss (buffer : list ascii) (headers : list (list ascii))
    (before : request_line) (origin : list (list ascii)) (g : globals) :
  buffer <> [] ->
  strcasecmp (method (snd (sscanf3 buffer before))) (lit "GET") = 0 ->
  fst (check_cache g (uri (snd (sscanf3 buffer before)))) = None ->
  let req := snd (sscanf3 buffer before) in
  let u := extract_uri (uri req) in
  let staged := tee origin (repeat NUL (Z.to_nat MAX_OBJECT_SIZE)) 0 [] in
  process_request (buffer :: headers) before origin g =
    if snd (fst staged) <=? MAX_OBJECT_SIZE then
      mk_transcript (concat (until_eof origin)) None (Some (uri req))
        (Some (host u, port u)) (origin_request (uri req) headers)
        (Some (uri req, fst (fst staged), snd (fst staged)))
        (add_to_cache g (uri req) (fst (fst staged)) (snd (fst staged)))
    else
      mk_transcript (concat (until_eof origin)) None (Some (uri req))
        (Some (host u, port u)) (origin_request (uri req) headers) None (Some g).
Proof.
  intros Hne Hget Hmiss req u staged. subst req u staged.
  unfold process_request.
  destruct buffer as [|b0 buffer]; [congruence|]. cbn [length Nat.eqb].
  destruct (sscanf3 (b0 :: buffer) before) as [count req]. cbn [snd] in *.
  rewrite Hget. cbn [Z.eqb negb].
  destruct (check_cache g (uri req)) as [[node|] g1] eqn:Hc; [discriminate|].
  destruct (check_cache_miss g g1 (uri req) Hc) as [-> _].
  pose proof (tee_client origin (repeat NUL (Z.to_nat MAX_OBJECT_SIZE)) [] 0) as Hcl.
  destruct (tee origin _ 0 []) as [[ob total] client]. cbn [fst snd app] in *.
  subst client. unfold origin_request. reflexivity.
Qed.

(** X9.  On a request line of at least two words whose method is GET, when
    the lookup finds nothing and no array is overrun, the client receives
    the bytes read from the origin, all of them and in order, whatever their
    number; the origin named by the uri is the one connected to, and it is
    sent the request line, the [Host] header and the header block. *)
Theorem miss_relays_the_response (buffer : list ascii) (headers : list (list ascii))
    (before : request_line) (origin : list (list ascii)) (g : globals) :
  buffer <> [] ->
  2 <= fst (sscanf3 buffer before) ->
  process_request_fits (buffer :: headers) before g = true ->
  strcasecmp (method (snd (sscanf3 buffer before))) (lit "GET") = 0 ->
  fst (check_cache g (uri (snd (sscanf3 buffer before)))) = None ->
  let req := snd (sscanf3 buffer before) in
  let t := process_request (buffer :: headers) before origin g in
  extract_uri_fits (uri req) = true /\
  to_client t = concat (until_eof origin) /\
  error_sent t = None /\
  opened t = Some (host (extract_uri (uri req)), port (extract_uri (uri req))) /\
  to_server t = origin_request (uri req) headers.
Proof.
  intros Hne _ Hfits Hget Hmiss req t. subst t.
  rewrite (process_request_on_miss buffer headers before origin g Hne Hget Hmiss).
  fold req. split.
  - unfold process_request_fits in Hfits.
    destruct buffer as [|b0 buffer]; [congruence|]. cbn [length Nat.eqb] in Hfits.
    apply andb_true_iff in Hfits. destruct Hfits as [_ Hfits]. cbv zeta in Hfits.
    fold req in Hfits, Hget, Hmiss.
    rewrite Hget, Hmiss in Hfits. exact Hfits.
  - destruct (_ <=? MAX_OBJECT_SIZE); cbn; auto.
Qed.

Lemma miss_relays_the_response_witness :
  let t := process_request [lit "GET http://h/x HTTP/1.0" ++ CRLF; CRLF]
             (mk_request_line [] [] []) [lit "hel"; lit "lo"; []; lit "never read"]
             ten_objects in
  extract_uri_fits (lit "http://h/x") = true /\
  to_client t = concat (until_eof [lit "hel"; lit "lo"; []; lit "never read"]) /\
  error_sent t = None /\
  opened t = Some (host (extract_uri (lit "http://h/x")),
                   port (extract_uri (lit "http://h/x"))) /\
  to_server t = origin_request (lit "http://h/x") [CRLF].
Proof.
  apply (miss_relays_the_response (lit "GET http://h/x HTTP/1.0" ++ CRLF) [CRLF]
           (mk_request_line [] [] []) [lit "hel"; lit "lo"; []; lit "never read"]
           ten_objects).
  - discriminate.
  - vm_compute. discriminate.
  - vm_compute. reflexivity.
  - vm_compute. reflexivity.
  - vm_compute. reflexivity.
Defined.












(** ** The method *)

Lemma tolower_nul (c : ascii) : (tolower c =? NUL)%char = (c =? NUL)%char.
Proof. destruct c as [[] [] [] [] [] [] [] []]; reflexivity. Qed.

(** [strcasecmp] returns 0 exactly on buffers whose strings are the same
    once their capital letters are lowered. *)
Lemma strcasecmp_zero (a b : list ascii) :
  strcasecmp a b = 0 <-> map tolower (cstr a) = map tolower (cstr b).
Proof.
  revert b. induction a as [|x a IH]; intros b.
  - destruct b as [|y b]; cbn [strcasecmp hd tl cstr map].
    + change (tolower NUL) with NUL. rewrite Ascii.eqb_refl. tauto.
    + change (tolower NUL) with NUL. rewrite (Ascii.eqb_sym NUL), tolower_nul.
      destruct (Ascii.eqb_spec y NUL) as [->|Hy]; [cbn; tauto|].
      split; [|discriminate].
      intros E. exfalso. revert E. apply code_diff.
      rewrite Ascii.eqb_sym, tolower_nul. now apply Ascii.eqb_neq.
  - destruct b as [|y b]; cbn [strcasecmp hd tl cstr].
    + change (tolower NUL) with NUL. rewrite tolower_nul.
      destruct (Ascii.eqb_spec x NUL) as [->|Hx]; [cbn; tauto|].
      split; [|discriminate].
      intros E. exfalso. revert E. apply code_diff.
      rewrite tolower_nul. now apply Ascii.eqb_neq.
    + rewrite tolower_nul.
      destruct (Ascii.eqb_spec (tolower x) (tolower y)) as [E|E].
      * destruct (Ascii.eqb_spec x NUL) as [->|Hx].
        -- assert (Hy : (y =? NUL)%char = true)
             by (rewrite <- tolower_nul, <- E; reflexivity).
           rewrite Hy. cbn. tauto.
        -- assert (Hy : (y =? NUL)%char = false).
           { rewrite <- tolower_nul, <- E, tolower_nul. now apply Ascii.eqb_neq. }
           rewrite Hy. cbn [map]. rewrite IH, E.
           split; [intros ->; reflexivity|now intros [= ->]].
      * split.
        -- intros H. exfalso. revert H. apply code_diff. now apply Ascii.eqb_neq.
        -- destruct (Ascii.eqb_spec x NUL) as [->|Hx];
           destruct (Ascii.eqb_spec y NUL) as [->|Hy]; cbn [map].
           ++ now elim E.
           ++ discriminate.
           ++ discriminate.
           ++ intros [= H _]. now elim E.
Qed.

(** X13.  On a request line of at least one word on which no array is
    overrun, the method is compared with GET without regard to the case of
    its letters, and a request with another method touches nothing: when the
    method, with its capitals lowered, is not [get], the client receives the
    501 page, the store is not probed, no origin is connected to and the
    store and the counter stay; when it is [get] and the line has a second
    word, no error page is sent and the store is probed with that word. *)
Theorem method_is_compared_without_case
    (buffer : list ascii) (headers : list (list ascii)) (before : request_line)
    (origin : list (list ascii)) (g : globals) :
  buffer <> [] ->
  1 <= fst (sscanf3 buffer before) ->
  process_request_fits (buffer :: headers) before g = true ->
  let req := snd (sscanf3 buffer before) in
  let t := process_request (buffer :: headers) before origin g in
  (map tolower (cstr (method req)) = lit "get" /\
   (2 <= fst (sscanf3 buffer before) ->
    error_sent t = None /\ probed t = Some (uri req))) \/
  (map tolower (cstr (method req)) <> lit "get" /\
   send_error_fits (method req) (lit "501") (lit "Not Implemented")
     (lit "This proxy only supports GET requests") = true /\
   to_client t = send_error (method req) (lit "501") (lit "Not Implemented")
                   (lit "This proxy only supports GET requests") /\
   probed t = None /\ opened t = None /\ to_server t = [] /\
   admitted t = None /\ globals_after t = Some g).
Proof.
  intros Hne _ Hfits req t. subst req t.
  unfold process_request, process_request_fits in *.
  destruct buffer as [|b0 buffer]; [congruence|]. cbn [length Nat.eqb] in *.
  apply andb_true_iff in Hfits. destruct Hfits as [_ Hfits]. cbv zeta in Hfits.
  destruct (sscanf3 (b0 :: buffer) before) as [count req]. cbn [fst snd] in *.
  destruct (Z.eqb_spec (strcasecmp (method req) (lit "GET")) 0) as [E|E]; cbn [negb] in *.
  - left. split; [now apply strcasecmp_zero in E|]. intros _.
    destruct (check_cache g (uri req)) as [[node|] g1].
    + cbn. auto.
    + destruct (tee origin _ 0 []) as [[ob total] client].
      destruct (total <=? MAX_OBJECT_SIZE); cbn; auto.
  - right. split; [|split; [exact Hfits|cbn; repeat split; reflexivity]].
    intros H. apply E. now apply strcasecmp_zero.
Qed.

Lemma method_is_compared_without_case_witness :
  let req := snd (sscanf3 (lit "Post http://h/x HTTP/1.0" ++ CRLF) (mk_request_line [] [] [])) in
  let t := process_request [lit "Post http://h/x HTTP/1.0" ++ CRLF; CRLF]
             (mk_request_line [] [] []) [lit "hello"] ten_objects in
  (map tolower (cstr (method req)) = lit "get" /\
   (2 <= fst (sscanf3 (lit "Post http://h/x HTTP/1.0" ++ CRLF) (mk_request_line [] [] [])) ->
    error_sent t = None /\ probed t = Some (uri req))) \/
  (map tolower (cstr (method req)) <> lit "get" /\
   send_error_fits (method req) (lit "501") (lit "Not Implemented")
     (lit "This proxy only supports GET requests") = true /\
   to_client t = send_error (method req) (lit "501") (lit "Not Implemented")
                   (lit "This proxy only supports GET requests") /\
   probed t = None /\ opened t = None /\ to_server t = [] /\
   admitted t = None /\ globals_after t = Some ten_objects).
Proof.
  apply (method_is_compared_without_case (lit "Post http://h/x HTTP/1.0" ++ CRLF) [CRLF]
           (mk_request_line [] [] []) [lit "hello"] ten_objects).
  - discriminate.
  - vm_compute. discriminate.
  - vm_compute. reflexivity.
Defined.

(** ** The request line *)

Lemma word_nul_free (w : list ascii) : is_word w -> nul_free w.
Proof.
  intros [_ H] Hin. apply (proj1 (Forall_forall _ _) H) in Hin. tauto.
Qed.

(** One [%s] on a word that white space follows: the word, and the rest
    from that white space on. *)
Lemma scan_word_word (w rest : list ascii) (sp : ascii) :
  is_word w -> isspace sp = true ->
  scan_word (w ++ sp :: rest) = Some (w, sp :: rest).
Proof.
  intros [Hne Hw] Hsp. unfold scan_word.
  assert (Hword : word (w ++ sp :: rest) = w /\ after_word (w ++ sp :: rest) = sp :: rest).
  { clear Hne. induction Hw as [|c w [Hc _] _ IH]; cbn [app word after_word].
    - now rewrite Hsp.
    - rewrite Hc. destruct IH as [-> ->]. auto. }
  destruct w as [|c w]; [congruence|].
  apply Forall_cons_iff in Hw. destruct Hw as [[Hc _] _].
  change ((c :: w) ++ sp :: rest) with (c :: (w ++ sp :: rest)) in *.
  cbn [skip_space]. rewrite Hc. destruct Hword as [-> ->]. reflexivity.
Qed.

Lemma scan_word_skip (rest : list ascii) (sp : ascii) :
  isspace sp = true -> scan_word (sp :: rest) = scan_word rest.
Proof. intros Hsp. unfold scan_word. cbn [skip_space]. now rewrite Hsp. Qed.

(** X14.  A request line made of three words with a space between them and
    CR LF at the end is read back: [sscanf] assigns the three words to
    [method], [uri] and [version], whatever the arrays held, and returns 3. *)
Theorem sscanf3_reads_three_words (m u v : list ascii) (before : request_line) :
  is_word m -> is_word u -> is_word v ->
  sscanf3 (m ++ lit " " ++ u ++ lit " " ++ v ++ CRLF) before
  = (3, {| method := m; uri := u; version := v |}).
Proof.
  intros Hm Hu Hv. unfold sscanf3.
  assert (Hnf : nul_free (m ++ lit " " ++ u ++ lit " " ++ v ++ CRLF)).
  { pose proof (word_nul_free m Hm). pose proof (word_nul_free u Hu).
    pose proof (word_nul_free v Hv). unfold nul_free in *.
    rewrite !in_app_iff. cbn. intuition discriminate. }
  rewrite (cstr_nul_free _ Hnf).
  change (lit " " ++ u ++ lit " " ++ v ++ CRLF)
    with (" "%char :: (u ++ " "%char :: (v ++ CR :: [LF]))).
  rewrite (scan_word_word m _ " "%char Hm eq_refl).
  rewrite (scan_word_skip _ " "%char eq_refl).
  rewrite (scan_word_word u _ " "%char Hu eq_refl).
  rewrite (scan_word_skip _ " "%char eq_refl).
  rewrite (scan_word_word v _ CR Hv eq_refl).
  reflexivity.
Qed.

Lemma sscanf3_reads_three_words_witness :
  sscanf3 (lit "GET" ++ lit " " ++ lit "http://h/x" ++ lit " " ++ lit "HTTP/1.0" ++ CRLF)
    (mk_request_line (lit "old") (lit "old") (lit "old"))
  = (3, {| method := lit "GET"; uri := lit "http://h/x"; version := lit "HTTP/1.0" |}).
Proof.
  apply (sscanf3_reads_three_words (lit "GET") (lit "http://h/x") (lit "HTTP/1.0")).
  - split; [discriminate|]. repeat constructor; discriminate.
  - split; [discriminate|]. repeat constructor; discriminate.
  - split; [discriminate|]. repeat constructor; discriminate.
Defined.

Lemma word_is_word (s : list ascii) :
  nul_free s -> Forall (fun c => isspace c = false /\ c <> NUL) (word s).
Proof.
  unfold nul_free. induction s as [|c r IH]; intros Hnf; cbn [word]; [constructor|].
  destruct (isspace c) eqn:Hc; [constructor|].
  constructor.
  - split; [exact Hc|]. intros ->. apply Hnf. now left.
  - apply IH. intros H. apply Hnf. now right.
Qed.

Lemma skip_space_nul_free (s : list ascii) : nul_free s -> nul_free (skip_space s).
Proof.
  unfold nul_free. induction s as [|c r IH]; intros Hnf; cbn [skip_space]; [tauto|].
  destruct (isspace c); [|exact Hnf]. apply IH. intros H. apply Hnf. now right.
Qed.

Lemma after_word_nul_free (s : list ascii) : nul_free s -> nul_free (after_word s).
Proof.
  unfold nul_free. induction s as [|c r IH]; intros Hnf; cbn [after_word]; [tauto|].
  destruct (isspace c); [exact Hnf|]. apply IH. intros H. apply Hnf. now right.
Qed.

(** What one [%s] stores is a word, and what it leaves has no NUL. *)
Lemma scan_word_is_word (s w rest : list ascii) :
  nul_free s -> scan_word s = Some (w, rest) -> is_word w /\ nul_free rest.
Proof.
  intros Hnf. unfold scan_word.
  pose proof (skip_space_nul_free s Hnf) as Hs.
  assert (Hhead : forall c r, skip_space s = c :: r -> isspace c = false).
  { clear. induction s as [|x s IH]; intros c r; cbn [skip_space]; [discriminate|].
    destruct (isspace x) eqn:Hx; [apply IH|]. now intros [= <- _]. }
  destruct (skip_space s) as [|c r] eqn:E; [discriminate|].
  intros [= <- <-]. split; [split|].
  - change (word (c :: r)) with (if isspace c then [] else c :: word r).
    rewrite (Hhead c r eq_refl). discriminate.
  - exact (word_is_word (c :: r) Hs).
  - exact (after_word_nul_free (c :: r) Hs).
Qed.

(** X15.  Whatever the client sends as its request line, once [sscanf] has
    read two words the method and the uri the pipeline works with are words:
    not empty, without white space (so without CR and LF) and without NUL. *)
Theorem parsed_method_and_uri_are_words (buffer : list ascii) (before : request_line) :
  2 <= fst (sscanf3 buffer before) ->
  is_word (method (snd (sscanf3 buffer before))) /\
  is_word (uri (snd (sscanf3 buffer before))).
Proof.
  unfold sscanf3.
  destruct (scan_word (cstr buffer)) as [[w1 r1]|] eqn:E1; [|cbn; lia].
  destruct (scan_word_is_word _ _ _ (cstr_is_nul_free buffer) E1) as [Hw1 Hr1].
  destruct (scan_word r1) as [[w2 r2]|] eqn:E2; [|cbn; lia].
  destruct (scan_word_is_word _ _ _ Hr1 E2) as [Hw2 Hr2].
  destruct (scan_word r2) as [[w3 r3]|]; cbn; auto.
Qed.

Lemma parsed_method_and_uri_are_words_witness :
  is_word (method (snd (sscanf3 (lit "  GET   http://h/x" ++ CRLF) (mk_request_line [] [] [])))) /\
  is_word (uri (snd (sscanf3 (lit "  GET   http://h/x" ++ CRLF) (mk_request_line [] [] [])))).
Proof.
  apply (parsed_method_and_uri_are_words (lit "  GET   http://h/x" ++ CRLF)
           (mk_request_line [] [] [])).
  vm_compute. discriminate.
Defined.

(** ** The parts of a uri *)

Lemma skipn_app_length (a b : list ascii) (n : nat) :
  skipn (length a + n) (a ++ b) = skipn n b.
Proof. induction a as [|x a IH]; [reflexivity|exact IH]. Qed.

Lemma skipn_length_app (a b : list ascii) : skipn (length a) (a ++ b) = b.
Proof. induction a as [|x a IH]; [reflexivity|exact IH]. Qed.

Lemma firstn_app_length (a b : list ascii) : firstn (length a) (a ++ b) = a.
Proof. induction a as [|x a IH]; [reflexivity|]. cbn. now rewrite IH. Qed.

Lemma strstr_slashes_at (s rest : list ascii) :
  Forall (fun c => c <> "/"%char /\ c <> NUL) s ->
  strstr_slashes (s ++ "/"%char :: "/"%char :: rest) = Some (length s).
Proof.
  induction 1 as [|c s [H1 H2] _ IH]; [reflexivity|].
  cbn [app strstr_slashes length].
  apply Ascii.eqb_neq in H1, H2. rewrite H1, H2, IH. reflexivity.
Qed.

Lemma strchr_slash_at (p rest : list ascii) :
  Forall (fun c => c <> "/"%char /\ c <> NUL) p ->
  strchr (p ++ "/"%char :: rest) "/" = Some (length p).
Proof.
  induction 1 as [|c p [H1 H2] _ IH]; [reflexivity|].
  cbn [app strchr length].
  apply Ascii.eqb_neq in H1, H2. rewrite H1, H2, IH. reflexivity.
Qed.

Lemma strchr_slash_none (p : list ascii) :
  Forall (fun c => c <> "/"%char /\ c <> NUL) p -> strchr p "/" = None.
Proof.
  induction 1 as [|c p [H1 H2] _ IH]; [reflexivity|].
  cbn [strchr]. apply Ascii.eqb_neq in H1, H2. rewrite H1, H2, IH. reflexivity.
Qed.

Lemma host_span_stop (h rest : list ascii) (c : ascii) :
  Forall (fun c => c <> "/"%char /\ c <> ":"%char /\ c <> NUL) h ->
  c = "/"%char \/ c = ":"%char ->
  host_span (h ++ c :: rest) = length h.
Proof.
  intros Hh Hc. induction Hh as [|x h (H1 & H2 & H3) _ IH]; cbn [app host_span length].
  - destruct Hc as [-> | ->]; reflexivity.
  - apply Ascii.eqb_neq in H1, H2, H3. rewrite H1, H2, H3. cbn. now rewrite IH.
Qed.

(** What [extract_uri] computes on a uri that is put together from a scheme,
    a host, a port and a path, the sizes of the arrays aside. *)
Lemma extract_uri_parts (scheme h p rest : list ascii) :
  Forall (fun c => c <> "/"%char /\ c <> NUL) scheme ->
  Forall (fun c => c <> "/"%char /\ c <> ":"%char /\ c <> NUL) h ->
  Forall (fun c => c <> "/"%char /\ c <> NUL) p ->
  nul_free rest ->
  let header path' :=
    lit "GET " ++ path' ++ lit " HTTP/1.0" ++ CRLF ++ lit "Host: " ++ h ++ CRLF in
  extract_uri (scheme ++ lit "//" ++ h ++ lit ":" ++ p ++ lit "/" ++ rest) =
    {| host := h; path := lit "/" ++ rest; port := p;
       request_header := header (lit "/" ++ rest) |} /\
  extract_uri (scheme ++ lit "//" ++ h ++ lit "/" ++ rest) =
    {| host := h; path := lit "/" ++ rest; port := lit "80";
       request_header := header (lit "/" ++ rest) |} /\
  extract_uri (scheme ++ lit "//" ++ h ++ lit ":" ++ p) =
    {| host := h; path := lit "/"; port := p;
       request_header := header (lit "/") |}.
Proof.
  intros Hs Hh Hp Hrest header.
  assert (Hhn : cstr h = h) by (apply cstr_nul_free, host_chars_nul_free, Hh).
  assert (Hpath : cstr ("/"%char :: rest) = "/"%char :: rest).
  { apply cstr_nul_free. unfold nul_free in *. intros [H|H]; [discriminate|auto]. }
  assert (Hpn : cstr p = p).
  { apply cstr_nul_free. intros Hin. apply (proj1 (Forall_forall _ _) Hp) in Hin. tauto. }
  assert (Hstart : forall tail,
            match strstr_slashes (scheme ++ lit "//" ++ tail) with
            | Some off => skipn (off + 2) (scheme ++ lit "//" ++ tail)
            | None => scheme ++ lit "//" ++ tail
            end = tail).
  { intros tail. change (lit "//" ++ tail) with ("/"%char :: "/"%char :: tail).
    rewrite (strstr_slashes_at scheme tail Hs).
    change ("/"%char :: "/"%char :: tail) with (lit "//" ++ tail).
    rewrite app_assoc.
    replace (length scheme + 2)%nat with (length (scheme ++ lit "//") + 0)%nat
      by (rewrite length_app; cbn; lia).
    apply skipn_app_length. }
  unfold header. split; [|split]; unfold extract_uri, fmt_s; rewrite Hstart.
  - change (lit ":" ++ p ++ lit "/" ++ rest) with (":"%char :: (p ++ "/"%char :: rest)).
    rewrite (host_span_stop h _ ":"%char Hh) by auto.
    rewrite firstn_app_length, !skipn_length_app. cbn [hd tl].
    rewrite Ascii.eqb_refl, (strchr_slash_at p rest Hp).
    rewrite firstn_app_length, skipn_length_app.
    change (lit "/" ++ rest) with ("/"%char :: rest).
    rewrite Hhn, Hpath, Hpath. reflexivity.
  - change (lit "/" ++ rest) with ("/"%char :: rest).
    rewrite (host_span_stop h _ "/"%char Hh) by auto.
    rewrite firstn_app_length, !skipn_length_app. cbn [hd].
    change ("/" =? ":")%char with false. cbv iota.
    rewrite Hhn, Hpath, Hpath. reflexivity.
  - change (lit ":" ++ p) with (":"%char :: p).
    rewrite (host_span_stop h _ ":"%char Hh) by auto.
    rewrite firstn_app_length, !skipn_length_app. cbn [hd tl].
    rewrite Ascii.eqb_refl, (strchr_slash_none p Hp).
    rewrite Hhn, Hpn. reflexivity.
Qed.

Lemma cstr_length (b : list ascii) : (length (cstr b) <= length b)%nat.
Proof.
  induction b as [|c r IH]; cbn [cstr length]; [lia|].
  destruct (c =? NUL)%char; cbn [length]; lia.
Qed.

(** X16.  [extract_uri] recovers the parts of a uri that is put together
    from them, when the uri and the request header for it fit their arrays
    of [MAXLINE] bytes.  With any scheme before the two slashes, a host, and
    then a colon, a port and a path: the host, the port and the path;
    without the colon and port: the host, port 80 and the path; with the
    colon and the port but no path: the host, the port and the path [/].
    The request header is the request line for the path and the [Host]
    header for the host, and no array is overrun. *)
Theorem extract_uri_recovers_parts (scheme h p rest : list ascii) :
  Forall (fun c => c <> "/"%char /\ c <> NUL) scheme ->
  Forall (fun c => c <> "/"%char /\ c <> ":"%char /\ c <> NUL) h ->
  Forall (fun c => c <> "/"%char /\ c <> NUL) p ->
  nul_free rest ->
  Z.of_nat (length scheme + length h + length p + length rest) + 4 < MAXLINE ->
  Z.of_nat (length h + length rest) + 24 < MAXLINE ->
  let header path' :=
    lit "GET " ++ path' ++ lit " HTTP/1.0" ++ CRLF ++ lit "Host: " ++ h ++ CRLF in
  let uri1 := scheme ++ lit "//" ++ h ++ lit ":" ++ p ++ lit "/" ++ rest in
  let uri2 := scheme ++ lit "//" ++ h ++ lit "/" ++ rest in
  let uri3 := scheme ++ lit "//" ++ h ++ lit ":" ++ p in
  (extract_uri uri1 =
     {| host := h; path := lit "/" ++ rest; port := p;
        request_header := header (lit "/" ++ rest) |} /\
   extract_uri_fits uri1 = true) /\
  (extract_uri uri2 =
     {| host := h; path := lit "/" ++ rest; port := lit "80";
        request_header := header (lit "/" ++ rest) |} /\
   extract_uri_fits uri2 = true) /\
  (extract_uri uri3 =
     {| host := h; path := lit "/"; port := p;
        request_header := header (lit "/") |} /\
   extract_uri_fits uri3 = true).
Proof.
  intros Hs Hh Hp Hrest Hu Hr header uri1 uri2 uri3.
  destruct (extract_uri_parts scheme h p rest Hs Hh Hp Hrest) as (E1 & E2 & E3).
  fold uri1 in E1. fold uri2 in E2. fold uri3 in E3.
  assert (Hfit : forall uri u,
            extract_uri uri = u ->
            Z.of_nat (length uri) < MAXLINE ->
            Z.of_nat (length (host u)) < MAXLINE ->
            Z.of_nat (length (path u)) < MAXLINE ->
            Z.of_nat (length (port u)) < MAXLINE ->
            Z.of_nat (length (request_header u)) < MAXLINE ->
            extract_uri_fits uri = true).
  { intros uri u <- H0 H1 H2 H3 H4. unfold extract_uri_fits, fitsb.
    pose proof (cstr_length uri).
    rewrite !andb_true_iff, !Z.ltb_lt. repeat split; lia. }
  unfold MAXLINE in *.
  split; [|split]; (split; [assumption|]).
  - eapply Hfit; [exact E1|..]; unfold uri1, header; cbn [host path port request_header];
      rewrite ?length_app; cbn [length lit list_ascii_of_string CRLF]; lia.
  - eapply Hfit; [exact E2|..]; unfold uri2, header; cbn [host path port request_header];
      rewrite ?length_app; cbn [length lit list_ascii_of_string CRLF]; lia.
  - eapply Hfit; [exact E3|..]; unfold uri3, header; cbn [host path port request_header];
      rewrite ?length_app; cbn [length lit list_ascii_of_string CRLF]; lia.
Qed.

Lemma extract_uri_recovers_parts_witness :
  let header path' :=
    lit "GET " ++ path' ++ lit " HTTP/1.0" ++ CRLF ++ lit "Host: " ++ lit "example.com"
    ++ CRLF in
  let uri1 := lit "http:" ++ lit "//" ++ lit "example.com" ++ lit ":" ++ lit "8080"
              ++ lit "/" ++ lit "a/b?q=1" in
  let uri2 := lit "http:" ++ lit "//" ++ lit "example.com" ++ lit "/" ++ lit "a/b?q=1" in
  let uri3 := lit "http:" ++ lit "//" ++ lit "example.com" ++ lit ":" ++ lit "8080" in
  (extract_uri uri1 =
     {| host := lit "example.com"; path := lit "/" ++ lit "a/b?q=1"; port := lit "8080";
        request_header := header (lit "/" ++ lit "a/b?q=1") |} /\
   extract_uri_fits uri1 = true) /\
  (extract_uri uri2 =
     {| host := lit "example.com"; path := lit "/" ++ lit "a/b?q=1"; port := lit "80";
        request_header := header (lit "/" ++ lit "a/b?q=1") |} /\
   extract_uri_fits uri2 = true) /\
  (extract_uri uri3 =
     {| host := lit "example.com"; path := lit "/"; port := lit "8080";
        request_header := header (lit "/") |} /\
   extract_uri_fits uri3 = true).
Proof.
  apply (extract_uri_recovers_parts (lit "http:") (lit "example.com") (lit "8080")
           (lit "a/b?q=1")).
  - repeat constructor; discriminate.
  - repeat constructor; discriminate.
  - repeat constructor; discriminate.
  - unfold nul_free. cbn. intuition discriminate.
  - vm_compute. reflexivity.
  - vm_compute. reflexivity.
Defined.

(** ** The header block *)


Lemma relay_blank (rest : list (list ascii)) : relay (CRLF :: rest) = [].
Proof. reflexivity. Qed.

(** X18.  Nothing the client sends after the empty line reaches the origin:
    the header block is the same whatever follows the first empty line. *)
Theorem nothing_after_empty_line_is_relayed (hdrs rest rest' : list (list ascii)) :
  process_headers (hdrs ++ CRLF :: rest) = process_headers (hdrs ++ CRLF :: rest').
Proof.
  unfold process_headers. do 3 f_equal. f_equal.
  induction hdrs as [|buf hdrs IH]; cbn [app].
  - now rewrite !relay_blank.
  - cbn [relay]. rewrite IH. reflexivity.
Qed.

Lemma firstn_is_prefix (p l : list ascii) :
  firstn (length p) l = p <-> exists r, l = p ++ r.
Proof.
  split.
  - intros H. exists (skipn (length p) l). rewrite <- H at 1. symmetry. apply firstn_skipn.
  - intros [r ->]. apply firstn_app_length.
Qed.

(** X19.  A client line is withheld from the origin exactly when its string
    starts with one of the four names, letter for letter: [Host:],
    [User-Agent:], [Connection:] or [Proxy-Connection:]. *)
Theorem suppressed_iff_fixed_name (buf : list ascii) :
  suppressed buf = true <->
  exists name rest, In name fixed_names /\ cstr buf = name ++ rest.
Proof.
  unfold suppressed, fixed_names.
  rewrite !orb_true_iff, !Z.eqb_eq, !strncmp_zero.
  change (firstn 5 (cstr (lit "Host:"))) with (lit "Host:").
  change (firstn 11 (cstr (lit "User-Agent:"))) with (lit "User-Agent:").
  change (firstn 11 (cstr (lit "Connection:"))) with (lit "Connection:").
  change (firstn 17 (cstr (lit "Proxy-Connection:"))) with (lit "Proxy-Connection:").
  pose proof (firstn_is_prefix (lit "Host:") (cstr buf)) as H1.
  pose proof (firstn_is_prefix (lit "User-Agent:") (cstr buf)) as H2.
  pose proof (firstn_is_prefix (lit "Connection:") (cstr buf)) as H3.
  pose proof (firstn_is_prefix (lit "Proxy-Connection:") (cstr buf)) as H4.
  change (length (lit "Host:")) with 5%nat in H1.
  change (length (lit "User-Agent:")) with 11%nat in H2.
  change (length (lit "Connection:")) with 11%nat in H3.
  change (length (lit "Proxy-Connection:")) with 17%nat in H4.
  rewrite H1, H2, H3, H4. cbn [In]. split.
  - intros [[[[r Hr]|[r Hr]]|[r Hr]]|[r Hr]]; eauto 10.
  - intros (name & r & [<-|[<-|[<-|[<-|[]]]]] & Hr); eauto 10.
Qed.

(** ** The staging buffer *)

(** Past the limit the loop copies nothing more. *)
Lemma tee_full (chunks : list (list ascii)) :
  forall (object_buffer client : list ascii) (total_size : Z),
    MAX_OBJECT_SIZE <= total_size ->
    total_size + Z.of_nat (length (concat (until_eof chunks))) <= INT_MAX ->
    fst (fst (tee chunks object_buffer total_size client)) = object_buffer.
Proof.
  induction chunks as [|c cs IH]; intros ob client total Hfull Hmax; cbn [tee];
    [reflexivity|].
  destruct c as [|x c]; [reflexivity|].
  assert (Hn : (Z.of_nat (length (x :: c)) >? 0) = true)
    by (apply Z.gtb_lt; cbn [length]; lia).
  rewrite Hn.
  change (until_eof ((x :: c) :: cs)) with ((x :: c) :: until_eof cs) in *.
  cbn [concat] in *. rewrite length_app in *.
  apply Z.gtb_lt in Hn.
  rewrite (to_size_t_id total), to_size_t_id by range_lia.
  rewrite (proj2 (Z.ltb_ge _ _)) by lia.
  rewrite to_int_id by range_lia.
  apply IH; lia.
Qed.

Lemma tee_prefix (chunks : list (list ascii)) :
  forall (object_buffer client : list ascii) (total_size : Z),
    0 <= total_size ->
    total_size + Z.of_nat (length (concat (until_eof chunks))) <= INT_MAX ->
    Z.of_nat (length object_buffer) = MAX_OBJECT_SIZE ->
    exists k,
      (k <= length (concat (until_eof chunks)))%nat /\
      fst (fst (tee chunks object_buffer total_size client)) =
        firstn (Z.to_nat total_size) object_buffer ++
        firstn k (concat (until_eof chunks)) ++
        skipn (Z.to_nat total_size + k) object_buffer /\
      (total_size + Z.of_nat (length (concat (until_eof chunks))) < MAX_OBJECT_SIZE ->
       k = length (concat (until_eof chunks))).
Proof.
  induction chunks as [|c cs IH]; intros ob client total Htot Hmax Hlen.
  - exists 0%nat. cbn [tee until_eof concat length fst firstn app].
    rewrite Nat.add_0_r, firstn_skipn. auto.
  - destruct c as [|x c].
    + exists 0%nat. cbn [tee length Z.of_nat Z.gtb Z.compare until_eof Nat.eqb concat fst firstn app].
      rewrite Nat.add_0_r, firstn_skipn. auto.
    + cbn [tee].
      assert (Hn : (Z.of_nat (length (x :: c)) >? 0) = true)
        by (apply Z.gtb_lt; cbn [length]; lia).
      rewrite Hn. apply Z.gtb_lt in Hn.
      change (until_eof ((x :: c) :: cs)) with ((x :: c) :: until_eof cs) in *.
      cbn [concat] in *. rewrite length_app in *.
      set (chunk := x :: c) in *. set (body := concat (until_eof cs)) in *.
      set (t := Z.to_nat total).
      rewrite (to_size_t_id total), to_size_t_id by range_lia.
      rewrite to_int_id by range_lia.
      destruct (Z.ltb_spec (total + Z.of_nat (length chunk)) MAX_OBJECT_SIZE) as [Hcopy|Hskip].
      * assert (Hob : memcpy ob t chunk
                      = (firstn t ob ++ chunk) ++ skipn (t + length chunk) ob)
          by (unfold memcpy; now rewrite <- app_assoc).
        assert (Hf : length (firstn t ob ++ chunk) = (t + length chunk)%nat)
          by (rewrite length_app, length_firstn; lia).
        destruct (IH (memcpy ob t chunk) (client ++ chunk) (total + Z.of_nat (length chunk)))
          as (k & Hk & Heq & Hall); try lia.
        { rewrite Hob, !length_app, length_firstn, length_skipn. lia. }
        exists (length chunk + k)%nat. split; [lia|]. split; [|intros H; rewrite Hall; lia].
        rewrite Heq.
        replace (Z.to_nat (total + Z.of_nat (length chunk))) with (t + length chunk)%nat by lia.
        rewrite Hob.
        rewrite firstn_app, Hf, Nat.sub_diag, <- Hf, firstn_all. cbn [firstn].
        rewrite skipn_app, Hf.
        rewrite (skipn_all2 (firstn t ob ++ chunk)) by lia.
        rewrite skipn_skipn, app_nil_r, <- !app_assoc. cbn [app].
        rewrite (firstn_app (length chunk + k) chunk body).
        rewrite (firstn_all2 chunk) by lia.
        replace (length chunk + k - length chunk)%nat with k by lia.
        rewrite <- !app_assoc. do 4 f_equal. lia.
      * subst body. exists 0%nat. split; [lia|]. split; [|lia].
        rewrite tee_full by lia. cbn [firstn app].
        rewrite Nat.add_0_r. symmetry. apply firstn_skipn.
Qed.

(** X20.  For a response of fewer than 2^31 bytes, when the loop ends
    [object_buffer] holds at its start a prefix of the bytes read and is
    untouched after it; the prefix is all the bytes read when they are
    fewer than [MAX_OBJECT_SIZE]. *)
Theorem staging_holds_a_prefix (origin : list (list ascii)) :
  Z.of_nat (length (concat (until_eof origin))) <= INT_MAX ->
  let body := concat (until_eof origin) in
  let object_buffer := repeat NUL (Z.to_nat MAX_OBJECT_SIZE) in
  exists k,
    (k <= length body)%nat /\
    fst (fst (tee origin object_buffer 0 [])) =
      firstn k body ++ skipn k object_buffer /\
    (Z.of_nat (length body) < MAX_OBJECT_SIZE -> k = length body).
Proof.
  intros Hmax body ob.
  destruct (tee_prefix origin ob [] 0) as (k & Hk & Heq & Hall); try lia.
  { unfold ob. rewrite repeat_length. apply Z2Nat.id. unfold MAX_OBJECT_SIZE. lia. }
  exists k. split; [exact Hk|]. split; [exact Heq|].
  intros H. apply Hall. unfold body in H. lia.
Qed.

Lemma staging_holds_a_prefix_witness :
  exists k,
    (k <= length (concat (until_eof [lit "hel"; lit "lo"])))%nat /\
    fst (fst (tee [lit "hel"; lit "lo"] (repeat NUL (Z.to_nat MAX_OBJECT_SIZE)) 0 [])) =
      firstn k (concat (until_eof [lit "hel"; lit "lo"])) ++
      skipn k (repeat NUL (Z.to_nat MAX_OBJECT_SIZE)) /\
    (Z.of_nat (length (concat (until_eof [lit "hel"; lit "lo"]))) < MAX_OBJECT_SIZE ->
     k = length (concat (until_eof [lit "hel"; lit "lo"]))).
Proof.
  apply (staging_holds_a_prefix [lit "hel"; lit "lo"]).
  vm_compute. discriminate.
Defined.

(** ** The eviction loop on a store that is not sound *)

(** X21.  On an empty list [remove_oldest] returns at once, so when the list
    is empty and [current_size] still leaves no room for the object, the
    loop of [add_to_cache] never exits, however many iterations it makes. *)
Theorem eviction_loop_spins_on_empty_list (cache : cache_manager) (size : Z) (fuel : nat) :
  first cache = [] ->
  MAX_CACHE_SIZE < to_int (current_size cache + size) ->
  evict_until fuel cache size = None.
Proof.
  intros Hempty Hfull.
  induction fuel as [|fuel IH]; cbn [evict_until];
    rewrite (proj2 (Z.gtb_lt _ _)) by lia; [reflexivity|].
  now rewrite (remove_oldest_empty cache Hempty).
Qed.

Lemma eviction_loop_spins_on_empty_list_witness :
  evict_until 1000 {| first := []; current_size := 2000000 |} 1 = None.
Proof.
  apply (eviction_loop_spins_on_empty_list {| first := []; current_size := 2000000 |} 1 1000).
  - reflexivity.
  - vm_compute. reflexivity.
Defined.

(** ** Distinct stamps *)

Lemma remove_oldest_stamps_distinct (cache : cache_manager) :
  NoDup (map access_time (first cache)) ->
  NoDup (map access_time (first (remove_oldest cache))).
Proof.
  destruct (first cache) as [|head rest] eqn:E.
  - rewrite remove_oldest_empty by exact E. now rewrite E.
  - destruct (remove_oldest_cons cache) as (before & victim & after & Hl & Hr & _);
      [congruence|].
    rewrite Hr, <- E, Hl. cbn [first]. rewrite !map_app. cbn [map].
    apply NoDup_remove_1.
Qed.

Lemma fresh_stamp_distinct (l : list cache_node_t) (t : Z) :
  (forall m, In m l -> access_time m < t) ->
  ~ In t (map access_time l).
Proof.
  intros Hlt Hin. apply in_map_iff in Hin. destruct Hin as (m & <- & Hm).
  specialize (Hlt m Hm). lia.
Qed.

Lemma check_cache_stamps_distinct (g : globals) (uri : list ascii) :
  in_int (access_counter g) -> access_counter g < INT_MAX -> stamped_before g ->
  NoDup (map access_time (first (global_cache g))) ->
  NoDup (map access_time (first (global_cache (snd (check_cache g uri))))).
Proof.
  intros Hint Hlt Hb Hnd.
  destruct (check_cache g uri) as [[found|] g'] eqn:Hc; cbn [snd].
  - destruct (hit_raises_stamp g g' uri found Hint Hlt Hb Hc)
      as (before & n & after & Hl & Hl' & Hf & Hup).
    rewrite Hl' . rewrite Hl in Hnd, Hup. rewrite map_app in *. cbn [map] in *.
    apply NoDup_remove in Hnd. destruct Hnd as [Hnd _].
    apply (proj2 (NoDup_Add (Add_app (access_time found) (map access_time before)
                               (map access_time after)))).
    split; [exact Hnd|].
    rewrite <- map_app. apply fresh_stamp_distinct. intros m Hm. apply Hup.
    rewrite in_app_iff in *. cbn [In]. tauto.
  - destruct (check_cache_miss g g' uri Hc) as [-> _]. exact Hnd.
Qed.

Lemma add_to_cache_stamps_distinct (g g' : globals) (uri buffer : list ascii) (size : Z) :
  in_int (access_counter g) -> access_counter g < INT_MAX -> stamped_before g ->
  NoDup (map access_time (first (global_cache g))) ->
  add_to_cache g uri buffer size = Some g' ->
  NoDup (map access_time (first (global_cache g'))).
Proof.
  intros Hint Hlt Hb Hnd. unfold add_to_cache.
  destruct (size >? MAX_OBJECT_SIZE); [now intros [= <-]|].
  destruct (evict_until _ _ size) as [cache'|] eqn:He; [|discriminate].
  intros [= <-]. cbn [global_cache first map access_time].
  rewrite (update_counter_next _ Hint Hlt).
  constructor.
  - apply fresh_stamp_distinct. intros m Hm.
    pose proof (evict_until_keeps
                  (fun c => forall n, In n (first c) -> access_time n <= access_counter g)
                  size (fun c Hc n Hn => Hc n (remove_oldest_sub c n Hn)) _ _ _
                  (proj1 (Forall_forall _ _) Hb) He m Hm). lia.
  - exact (evict_until_keeps (fun c => NoDup (map access_time (first c))) size
             remove_oldest_stamps_distinct _ _ _ Hnd He).
Qed.

(** X22.  Ties do not arise among calls that do not overlap: in a run of
    lookups and admissions, each ended before the next begins, during which
    the counter stays within [INT_MAX], from a store whose entries carry
    pairwise distinct stamps, none beyond the counter, the entries of the
    store carry pairwise distinct stamps at the end. *)
Theorem stamps_stay_distinct (ops : list op) (g g' : globals) (stamps : list Z) :
  in_int (access_counter g) ->
  access_counter g + Z.of_nat (length ops) <= INT_MAX ->
  stamped_before g ->
  NoDup (map access_time (first (global_cache g))) ->
  run ops g = Some (g', stamps) ->
  NoDup (map access_time (first (global_cache g'))).
Proof.
  revert g g' stamps.
  induction ops as [|o more IH]; intros g g' stamps Hint Hmax Hb Hnd; cbn [run].
  - now intros [= <- _].
  - assert (Hlt : access_counter g < INT_MAX) by (cbn [length] in Hmax; lia).
    assert (Hlen : Z.of_nat (length (o :: more)) = Z.of_nat (length more) + 1)
      by (cbn [length]; lia).
    rewrite Hlen in Hmax. clear Hlen.
    destruct o as [uri|uri buffer size].
    + pose proof (check_cache_stamp g uri Hint Hlt Hb) as Hstep.
      pose proof (check_cache_stamps_distinct g uri Hint Hlt Hb Hnd) as Hnd1.
      destruct (check_cache g uri) as [found g1]. cbn [snd] in Hnd1.
      destruct (run more g1) as [[g2 rest]|] eqn:Hrun; [|discriminate].
      intros [= <- _].
      destruct found as [n|].
      * destruct Hstep as (_ & Hc & Hb1).
        apply (IH g1 g2 rest); auto; range_lia.
      * destruct Hstep as (Hc & Hb1).
        apply (IH g1 g2 rest); auto; range_lia.
    + destruct (add_to_cache g uri buffer size) as [g1|] eqn:Hadd; [|discriminate].
      destruct (run more g1) as [[g2 rest]|] eqn:Hrun; [|discriminate].
      intros [= <- _].
      pose proof (add_to_cache_stamps_distinct g g1 uri buffer size Hint Hlt Hb Hnd Hadd)
        as Hnd1.
      destruct (add_to_cache_stamp g g1 uri buffer size Hint Hlt Hb Hadd)
        as (Hb1 & [[_ Hc]|[_ Hc]]); apply (IH g1 g2 rest); auto; range_lia.
Qed.

Lemma stamps_stay_distinct_witness :
  NoDup (map access_time
           (first (global_cache
                     {| global_cache :=
                          {| first := [mk_node (lit "b") (lit "B") 1 2;
                                       mk_node (lit "a") (lit "A") 1 3];
                             current_size := 2 |};
                        access_counter := 3 |}))).
Proof.
  apply (stamps_stay_distinct
           [Admit (lit "a") (lit "A") 1; Admit (lit "b") (lit "B") 1; Lookup (lit "a")]
           startup _ [1; 2; 3]).
  - unfold in_int, INT_MIN, INT_MAX. cbn. lia.
  - unfold INT_MAX. cbn. lia.
  - constructor.
  - constructor.
  - reflexivity.
Defined.
